(** * MoviePilot plugins: hosts merge and Plex partial scan

    A shallow embedding of the two algorithms of the repository:

    - [ImmortalWrtHosts]: [__merge_hosts_with_local] and [__should_ignore_ip]
      of [src/__init__.py];
    - [PlexPartialScan]: [translate_path], [process_scan_queue],
      [trigger_plex_scan] and the library lookup helpers of
      [src/plugins.v2/plexpartialscan/__init__.py].

    Python strings are sequences of Unicode code points and are modelled as
    [list N]; the string methods the code calls are defined in [PyStr].
    Python dictionaries keep insertion order, which the merge depends on, so
    they are association lists with in-place update ([PyDict]). *)

From Stdlib Require Import NArith ZArith String Ascii Lia.
From stdpp Require Import base tactics option list gmap.

(** ** Python strings *)

Module PyStr.

Abbreviation str := (list N).

(** An ASCII literal as a sequence of code points. *)
Definition lit (s : string) : str :=
  map N_of_ascii (list_ascii_of_string s).
Arguments lit s%_string.

(** [bool(s)] for a string: non-empty. *)
Definition truthy (s : str) : bool :=
  match s with [] => false | _ :: _ => true end.

(** [str.isspace] on one code point, which is also what [\s] matches for a
    [str] pattern and what [str.strip()] removes. *)
Definition is_space (c : N) : bool :=
  ((9 <=? c) && (c <=? 13) || (28 <=? c) && (c <=? 32)
   || (c =? 133) || (c =? 160) || (c =? 5760)
   || (8192 <=? c) && (c <=? 8202)
   || (c =? 8232) || (c =? 8233) || (c =? 8239) || (c =? 8287)
   || (c =? 12288))%N.

Fixpoint lstrip_with (p : N → bool) (s : str) : str :=
  match s with
  | [] => []
  | c :: s' => if p c then lstrip_with p s' else s
  end.

Definition rstrip_with (p : N → bool) (s : str) : str :=
  reverse (lstrip_with p (reverse s)).

(** [s.strip()] *)
Definition strip (s : str) : str :=
  rstrip_with is_space (lstrip_with is_space s).

(** [s.lstrip(chars)] *)
Definition lstrip_chars (chars : str) (s : str) : str :=
  lstrip_with (λ c, bool_decide (c ∈ chars)) s.

(** [s.startswith(pre)] *)
Fixpoint startswith (s pre : str) {struct pre} : bool :=
  match pre, s with
  | [], _ => true
  | _ :: _, [] => false
  | p :: pre', c :: s' => (c =? p)%N && startswith s' pre'
  end.

(** [s.endswith(suf)] *)
Definition endswith (s suf : str) : bool :=
  startswith (reverse s) (reverse suf).

(** [s.endswith((suf1, suf2, ...))] *)
Definition endswith_any (s : str) (sufs : list str) : bool :=
  existsb (endswith s) sufs.

(** [needle in hay] *)
Fixpoint contains (needle hay : str) : bool :=
  startswith hay needle ||
  match hay with
  | [] => false
  | _ :: hay' => contains needle hay'
  end.

(** [s.replace(old, new, 1)]: the first occurrence only. *)
Fixpoint replace_first (old new s : str) : str :=
  if startswith s old then new ++ drop (length old) s
  else match s with
       | [] => []
       | c :: s' => c :: replace_first old new s'
       end.

(** [s.replace(old, new)] for a one-character [old], the only way the
    code calls it without a count. *)
Definition replace_char (old : N) (new : str) (s : str) : str :=
  concat (map (λ c, if (c =? old)%N then new else [c]) s).

(** [s.split(sep)] for a one-character separator. *)
Fixpoint split_on (sep : N) (s : str) : list str :=
  match s with
  | [] => [[]]
  | c :: s' =>
      if (c =? sep)%N then [] :: split_on sep s'
      else match split_on sep s' with
           | p :: ps => (c :: p) :: ps
           | [] => [[c]]
           end
  end.

(** [sep.join(parts)] *)
Fixpoint join (sep : str) (parts : list str) : str :=
  match parts with
  | [] => []
  | [p] => p
  | p :: ps => p ++ sep ++ join sep ps
  end.

(** [re.split(r'\s+', s)]: the pieces between maximal runs of whitespace,
    with an empty piece where [s] starts or ends with one. *)
Fixpoint re_split_ws (s : str) : list str :=
  match s with
  | [] => [[]]
  | c :: s' =>
      if is_space c then
        match s' with
        | [] => [[]; []]
        | c' :: _ => if is_space c' then re_split_ws s' else [] :: re_split_ws s'
        end
      else match re_split_ws s' with
           | p :: ps => (c :: p) :: ps
           | [] => [[c]]
           end
  end.

(** [s[1:]] *)
Definition tail1 (s : str) : str := drop 1 s.

(** [s.lower()] on the ASCII letters; other code points are kept. The
    keywords the code compares against after lowering contain no cased
    character outside ASCII. *)
Definition lower (s : str) : str :=
  map (λ c, if (65 <=? c)%N && (c <=? 90)%N then (c + 32)%N else c) s.

Definition SPACE : str := lit " ".
Definition TAB : str := [9%N].
Definition HASH : str := lit "#".
Definition SLASH : str := lit "/".
Definition BACKSLASH : N := 92%N.
Definition BOM : str := [65279%N].

End PyStr.

(** ** Insertion-ordered dictionaries *)

Module PyDict.
Import PyStr.

Abbreviation dict V := (list (str * V)).

(** [d[k] = v]: an existing key keeps its place, a new key goes last. *)
Fixpoint dict_set {V} (k : str) (v : V) (d : dict V) : dict V :=
  match d with
  | [] => [(k, v)]
  | (k', v') :: d' =>
      if decide (k = k') then (k, v) :: d' else (k', v') :: dict_set k v d'
  end.

(** [d.get(k)] *)
Fixpoint dict_get {V} (k : str) (d : dict V) : option V :=
  match d with
  | [] => None
  | (k', v') :: d' => if decide (k = k') then Some v' else dict_get k d'
  end.

Definition keys {V} (d : dict V) : list str := d.*1.
Definition values {V} (d : dict V) : list V := d.*2.

End PyDict.

(** ** The hosts plugin ([src/__init__.py]) *)

Module ImmortalWrtHosts.
Import PyStr PyDict.

(** What [ipaddress.ip_address] returns: an [IPv4Address] or an
    [IPv6Address], each carrying the address as an integer. *)
Inductive ip_obj : Type :=
| IPv4Address (ip : N)
| IPv6Address (ip : N).

Definition version (o : ip_obj) : N :=
  match o with IPv4Address _ => 4 | IPv6Address _ => 6 end.

(** [is_loopback]: membership of 127.0.0.0/8 for version 4, the address
    [::1] for version 6. *)
Definition is_loopback (o : ip_obj) : bool :=
  match o with
  | IPv4Address ip => (N.shiftr ip 24 =? 127)%N
  | IPv6Address ip => (ip =? 1)%N
  end.

Section Merge.

(** The parser of the standard [ipaddress] module; [None] stands for the
    [ValueError] it raises on text that is no address. *)
Variable ip_address : str → option ip_obj.

(** [__should_ignore_ip] *)
Definition should_ignore_ip (ip : str) : bool :=
  match ip_address ip with
  | Some ip_obj => is_loopback ip_obj || (version ip_obj =? 6)%N
  | None => false
  end.

(** [ignore = self._ignore.split("|") if self._ignore else []] followed by
    [ignore.extend(["localhost"])]. *)
Definition ignore_list (_ignore : option str) : list str :=
  match _ignore with
  | Some s => if truthy s then split_on 124 s else []
  | None => []
  end ++ [lit "localhost"].

(** [x in ignore] for the list [ignore]. *)
Definition in_list (x : str) (l : list str) : bool := bool_decide (x ∈ l).

(** The test of the first loop on one remote line: the hostname under which
    the line is recorded, if it is. *)
Definition remote_entry (ignore : list str) (line : str) : option str :=
  let line_stripped := strip line in
  if negb (startswith line_stripped HASH) && truthy line_stripped
     && (contains SPACE line_stripped || contains TAB line_stripped)
  then
    let parts := re_split_ws line_stripped in
    match parts with
    | ip :: hostname :: _ =>
        if negb (should_ignore_ip ip) && negb (in_list hostname ignore)
           && negb (in_list ip ignore)
        then Some hostname else None
    | _ => None
    end
  else None.

(** One turn of [for line in remote_hosts]. *)
Definition remote_step (ignore : list str)
    (st : list str * dict nat) (line : str) : list str * dict nat :=
  let merged_hosts := st.1 ++ [line] in
  match remote_entry ignore line with
  | Some hostname =>
      (merged_hosts, dict_set hostname (length merged_hosts - 1) st.2)
  | None => (merged_hosts, st.2)
  end.

Definition scan_remote (ignore : list str) (remote_hosts : list str)
    : list str * dict nat :=
  foldl (remote_step ignore) ([], []) remote_hosts.

(** The test of the second loop on one local line: the hostname and the
    stripped line stored for it, if the line is kept. *)
Definition local_entry (ignore : list str) (raw : str) : option (str * str) :=
  let line := strip (lstrip_chars BOM raw) in
  if startswith line HASH || existsb (λ ign, contains ign line) ignore
     || negb (truthy line)
  then None
  else
    let parts := re_split_ws line in
    match parts with
    | ip :: hostname :: _ =>
        if negb (should_ignore_ip ip) && negb (in_list hostname ignore)
           && negb (in_list ip ignore)
        then Some (hostname, line) else None
    | _ => None
    end.

(** One turn of [for line in local_hosts]. *)
Definition local_step (ignore : list str)
    (local_updates : dict str) (raw : str) : dict str :=
  match local_entry ignore raw with
  | Some (hostname, line) => dict_set hostname line local_updates
  | None => local_updates
  end.

Definition collect_local (ignore : list str) (local_hosts : list str)
    : dict str :=
  foldl (local_step ignore) [] local_hosts.

(** One turn of [for hostname, new_line in local_updates.items()]. The
    assignment [merged_hosts[line_index] = new_line] raises [IndexError]
    out of range, which is [None] here. *)
Definition apply_update (hostname_to_line_index : dict nat)
    (acc : option (list str)) (item : str * str) : option (list str) :=
  match acc with
  | None => None
  | Some merged_hosts =>
      match dict_get item.1 hostname_to_line_index with
      | Some line_index =>
          if decide (line_index < length merged_hosts)
          then Some (<[line_index := item.2]> merged_hosts)
          else None
      | None => Some (merged_hosts ++ [item.2])
      end
  end.

Definition apply_updates (hostname_to_line_index : dict nat)
    (local_updates : dict str) (merged_hosts : list str)
    : option (list str) :=
  foldl (apply_update hostname_to_line_index) (Some merged_hosts)
        local_updates.

(** [__merge_hosts_with_local]; the [except] clause returns the empty
    list. *)
Definition merge_hosts_with_local (_ignore : option str)
    (local_hosts remote_hosts : list str) : list str :=
  let ignore := ignore_list _ignore in
  let st := scan_remote ignore remote_hosts in
  let local_updates := collect_local ignore local_hosts in
  match apply_updates st.2 local_updates st.1 with
  | Some merged_hosts => merged_hosts
  | None => []
  end.

End Merge.

(** An executable reading of [ipaddress.ip_address] for the plain textual
    forms: a dotted quad of decimal octets without leading zeros, and eight
    groups of one to four hexadecimal digits with at most one [::]. It is
    what the examples below run the merge with. *)
Definition digit_val (c : N) : option N :=
  if (48 <=? c)%N && (c <=? 57)%N then Some (c - 48)%N else None.

Definition hex_val (c : N) : option N :=
  if (48 <=? c)%N && (c <=? 57)%N then Some (c - 48)%N
  else if (97 <=? c)%N && (c <=? 102)%N then Some (c - 87)%N
  else if (65 <=? c)%N && (c <=? 70)%N then Some (c - 55)%N
  else None.

Definition number (base : N) (val : N → option N) (s : str) : option N :=
  foldl (λ acc c, n ← acc; d ← val c; Some (n * base + d)%N) (Some 0%N) s.

Definition octet (s : str) : option N :=
  match s with
  | [] => None
  | c :: rest =>
      if (c =? 48)%N && truthy rest then None
      else if decide (length s ≤ 3) then
        n ← number 10 digit_val s; if (n <=? 255)%N then Some n else None
      else None
  end.

Definition hextet (s : str) : option N :=
  if truthy s && bool_decide (length s ≤ 4) then number 16 hex_val s else None.

Definition pack (bits : N) (groups : list N) : N :=
  foldl (λ acc g, (N.shiftl acc bits + g)%N) 0%N groups.

Definition parse_v4 (s : str) : option N :=
  match split_on 46 s with
  | [a; b; c; d] => pack 8 <$> mapM octet [a; b; c; d]
  | _ => None
  end.

Definition hextets (s : str) : option (list N) :=
  if truthy s then mapM hextet (split_on 58 s) else Some [].

(** The first [::] of [s]: the text before it and the text after it. *)
Fixpoint cut_double_colon (s : str) : option (str * str) :=
  match s with
  | 58%N :: 58%N :: rest => Some ([], rest)
  | c :: s' => (λ p, (c :: p.1, p.2)) <$> cut_double_colon s'
  | [] => None
  end.

Definition parse_v6 (s : str) : option N :=
  match cut_double_colon s with
  | Some (l, r) =>
      hi ← hextets l; lo ← hextets r;
      if decide (length hi + length lo ≤ 7)
      then Some (pack 16 (hi ++ replicate (8 - length hi - length lo) 0%N ++ lo))
      else None
  | None =>
      gs ← hextets s;
      if decide (length gs = 8) then Some (pack 16 gs) else None
  end.

Definition plain_ip_address (s : str) : option ip_obj :=
  match parse_v4 s with
  | Some n => Some (IPv4Address n)
  | None => IPv6Address <$> parse_v6 s
  end.

End ImmortalWrtHosts.

(** ** The Plex partial-scan plugin
    ([src/plugins.v2/plexpartialscan/__init__.py]) *)

Module PlexPartialScan.
Import PyStr PyDict.

(** One entry of [_path_library_mapping]. *)
Record mapping : Type := Mapping {
  local : str;
  remote : str;
  library_id : str
}.

(** The fields of the plugin instance the modelled methods read. *)
Record config : Type := Config {
  _path_mapping_local : option str;
  _path_mapping_remote : option str;
  _path_library_mapping : list mapping;
  _library_mapping : dict str;
  _refresh_rclone : bool;
  _rclone_rc_url : option str;
  _plex_url : option str;
  _plex_token : option str;
  _notify : bool
}.

(** Truthiness of an [Optional[str]] field: set and non-empty. *)
Definition configured (o : option str) : option str :=
  match o with
  | Some s => if truthy s then Some s else None
  | None => None
  end.

(** The marker of a 115 network-drive path: U+3010, [u115], U+3011. *)
Definition MARKER : str := [12304%N] ++ lit "u115" ++ [12305%N].

(** [s.replace("\\", "/")] *)
Definition norm_sep (s : str) : str := replace_char BACKSLASH SLASH s.

(** [p if p.endswith("/") else p + "/"] *)
Definition ensure_slash (p : str) : str :=
  if endswith p SLASH then p else p ++ SLASH.

(** The test of one triple rule against a normalised path. *)
Definition rule_matches (path_normalized : str) (m : mapping) : bool :=
  let local_prefix := norm_sep (local m) in
  let local_prefix_match := ensure_slash local_prefix in
  startswith path_normalized local_prefix_match
  || bool_decide (path_normalized = local_prefix).

(** [for mapping in self._path_library_mapping]: the first rule that
    matches returns. *)
Fixpoint try_rules (path_normalized : str) (rules : list mapping)
    : option (str * option str) :=
  match rules with
  | [] => None
  | m :: rest =>
      let local_prefix := norm_sep (local m) in
      let remote_prefix := norm_sep (remote m) in
      if rule_matches path_normalized m
      then Some (replace_first local_prefix remote_prefix path_normalized,
                 Some (library_id m))
      else try_rules path_normalized rest
  end.

(** The simple mode of a marker path: the remote prefix in front of the
    remainder. *)
Definition simple_mode (mapping_remote path_without_prefix : str)
    : option (str * option str) :=
  let remote_prefix := ensure_slash (norm_sep mapping_remote) in
  let path_without_prefix :=
    if startswith path_without_prefix SLASH then tail1 path_without_prefix
    else path_without_prefix in
  Some (remote_prefix ++ path_without_prefix, None).

(** The branch of [translate_path] for a path that starts with the marker. *)
Definition translate_marker (cfg : config) (local_path : str)
    : option (str * option str) :=
  let path_without_prefix := replace_first MARKER [] local_path in
  match (if bool_decide (_path_library_mapping cfg ≠ [])
         then try_rules (norm_sep path_without_prefix)
                        (_path_library_mapping cfg)
         else None) with
  | Some found => Some found
  | None =>
      match configured (_path_mapping_remote cfg) with
      | None => Some (path_without_prefix, None)
      | Some mapping_remote =>
          match configured (_path_mapping_local cfg) with
          | Some mapping_local =>
              let local_prefix := ensure_slash (norm_sep mapping_local) in
              let remote_prefix := ensure_slash (norm_sep mapping_remote) in
              let path_without_prefix := norm_sep path_without_prefix in
              let path_without_prefix :=
                if startswith path_without_prefix SLASH
                then tail1 path_without_prefix else path_without_prefix in
              if startswith path_without_prefix
                            (lstrip_chars SLASH local_prefix)
              then
                let remote_path :=
                  replace_first (lstrip_chars SLASH local_prefix)
                                (lstrip_chars SLASH remote_prefix)
                                path_without_prefix in
                let remote_path :=
                  if startswith remote_path SLASH then remote_path
                  else SLASH ++ remote_path in
                Some (remote_path, None)
              else simple_mode mapping_remote path_without_prefix
          | None => simple_mode mapping_remote path_without_prefix
          end
      end
  end.

(** [translate_path]. The result type follows the annotation
    [Optional[Tuple[str, Optional[str]]]]: every [return] of the body gives
    a tuple, which is [Some] here. *)
Definition translate_path (cfg : config) (local_path : str)
    : option (str * option str) :=
  if startswith local_path MARKER then translate_marker cfg local_path
  else
    match (if bool_decide (_path_library_mapping cfg ≠ [])
           then try_rules (norm_sep local_path) (_path_library_mapping cfg)
           else None) with
    | Some found => Some found
    | None =>
        match configured (_path_mapping_local cfg),
              configured (_path_mapping_remote cfg) with
        | Some mapping_local, Some mapping_remote =>
            let local_path := norm_sep local_path in
            let local_prefix := ensure_slash (norm_sep mapping_local) in
            let remote_prefix := ensure_slash (norm_sep mapping_remote) in
            if startswith local_path local_prefix
            then Some (replace_first local_prefix remote_prefix local_path,
                       None)
            else Some (local_path, None)
        | _, _ => Some (local_path, None)
        end
    end.

(** The test [if not result or not result[0]] of [process_scan_queue]. *)
Definition translation_failed (result : option (str * option str)) : bool :=
  match result with
  | None => true
  | Some (remote_path, _) => negb (truthy remote_path)
  end.

(** *** The scan queue *)

(** One entry of [_scan_queue]. The media information object is kept as the
    title it carries, if any; two entries are equal when all fields are, as
    for the dictionaries of the code. *)
Record scan_item : Type := ScanItem {
  path : str;
  mediainfo : option str;
  media_type : option str;
  time : N
}.

#[export] Instance scan_item_eq_dec : EqDecision scan_item.
Proof. solve_decision. Defined.

(** One value of [dir_map]. *)
Record dir_info : Type := DirInfo {
  items : list scan_item;
  dir_media_type : option str;
  dir_library_id : option str;
  rclone_done : bool
}.

(** The calls that leave the plugin, in the order they are made. *)
Inductive call : Type :=
| RcloneRefresh (dir : str)
| PlexRefresh (library_id : str) (scan_path : str)
| PostMessage (success : bool) (scan_dir : str) (file_count : nat).

Definition SLASH_MOVIE_CN : str := lit "/" ++ [30005%N; 24433%N] ++ lit "/".
Definition SLASH_ANIME_CN : str := lit "/" ++ [21160%N; 28459%N] ++ lit "/".
Definition SLASH_CARTOON_CN : str := lit "/" ++ [21160%N; 30011%N] ++ lit "/".
Definition SLASH_DRIVE_TV_CN : str :=
  lit "/" ++ [32593%N; 30424%N; 21095%N] ++ lit "/".
Definition SLASH_TV_CN : str := lit "/" ++ [30005%N; 35270%N; 21095%N] ++ lit "/".
Definition MOVIE_CN : str := [30005%N; 24433%N].
Definition TV_CN : str := [30005%N; 35270%N; 21095%N].

(** [_detect_media_type_from_path] *)
Definition _detect_media_type_from_path (p : str) : option str :=
  let path_lower := lower p in
  if existsb (λ keyword, contains keyword path_lower)
       [SLASH_MOVIE_CN; lit "/movie"; lit "/movies/"]
  then Some (lit "movie")
  else if existsb (λ keyword, contains keyword path_lower)
       [SLASH_ANIME_CN; lit "/anime/"; SLASH_CARTOON_CN]
  then Some (lit "anime")
  else if existsb (λ keyword, contains keyword path_lower)
       [SLASH_DRIVE_TV_CN; SLASH_TV_CN; lit "/tv/"; lit "/series/"; lit "/show"]
  then Some (lit "tv")
  else None.

(** [list(self._library_mapping.values())[0]] where the mapping is known
    to be non-empty; [None] otherwise. *)
Definition first_library (cfg : config) : option str :=
  head (values (_library_mapping cfg)).

Definition type_mapping : dict str :=
  [(lit "movie", lit "movie"); (MOVIE_CN, lit "movie");
   (lit "movies", lit "movie"); (lit "tv", lit "tv"); (TV_CN, lit "tv");
   (lit "series", lit "tv"); (lit "show", lit "tv")].

(** [get_library_id] *)
Definition get_library_id (cfg : config) (media_type : option str)
    : option str :=
  match configured media_type with
  | None => first_library cfg
  | Some media_type =>
      let media_type_lower := lower media_type in
      let mapped_type :=
        default media_type_lower (dict_get media_type_lower type_mapping) in
      match configured (dict_get mapped_type (_library_mapping cfg)) with
      | Some library_id => Some library_id
      | None =>
          match _library_mapping cfg with
          | [] => dict_get mapped_type (_library_mapping cfg)
          | _ :: _ => first_library cfg
          end
      end
  end.

(** [get_library_ids] *)
Definition get_library_ids (cfg : config) (media_type : option str)
    : list str :=
  match _library_mapping cfg with
  | [] => []
  | _ :: _ =>
      match configured media_type with
      | Some _ =>
          match configured (get_library_id cfg media_type) with
          | Some library_id => [library_id]
          | None => []
          end
      | None => values (_library_mapping cfg)
      end
  end.

(** [scan_dir] of a translated path: the text up to the last [/] when the
    path ends in a media extension, the path itself otherwise. *)
Definition MEDIA_EXTENSIONS : list str :=
  [lit ".mp4"; lit ".mkv"; lit ".avi"; lit ".ts"; lit ".m2ts"].

Definition scan_dir_of (remote_path : str) : str :=
  if endswith_any remote_path MEDIA_EXTENSIONS
  then
    let parts := split_on 47 remote_path in
    join SLASH (take (length parts - 1) parts) ++ SLASH
  else remote_path.

(** [dir_map[scan_dir]['items'].append(scan_item)], after the entry was
    created if it was missing. *)
Definition dir_map_add (scan_dir : str) (fresh : dir_info) (it : scan_item)
    (dir_map : dict dir_info) : dict dir_info :=
  let info := default fresh (dict_get scan_dir dir_map) in
  dict_set scan_dir
    (DirInfo (items info ++ [it]) (dir_media_type info) (dir_library_id info)
             (rclone_done info))
    dir_map.

(** One turn of the first loop of [process_scan_queue]. *)
Definition group_step (cfg : config) (dir_map : dict dir_info)
    (it : scan_item) : dict dir_info :=
  let result := translate_path cfg (path it) in
  if translation_failed result then dir_map
  else
    match result with
    | None => dir_map
    | Some (remote_path, library_id) =>
        let scan_dir := scan_dir_of remote_path in
        let media_type :=
          match _detect_media_type_from_path scan_dir with
          | Some detected_type => Some detected_type
          | None => media_type it
          end in
        dir_map_add scan_dir (DirInfo [] media_type library_id false) it
                    dir_map
    end.

(** [list.remove(x)]: the first equal element goes; [None] is the
    [ValueError] raised when there is none. *)
Fixpoint list_remove (x : scan_item) (l : list scan_item)
    : option (list scan_item) :=
  match l with
  | [] => None
  | y :: l' => if decide (x = y) then Some l' else (y ::.) <$> list_remove x l'
  end.

Section Run.

(** The answer of the Plex server: whether the GET to
    [/library/sections/<id>/refresh] for a library id and a path comes back
    with status 200. The answer of the cache refresh is only logged. *)
Variable plex_ok : str → str → bool.

(** [trigger_plex_scan]: the requests made and the value returned. *)
Definition trigger_plex_scan (cfg : config) (scan_path : str)
    (media_type library_id : option str) : list call * bool :=
  match configured (_plex_url cfg), configured (_plex_token cfg) with
  | Some _, Some _ =>
      let library_ids :=
        match configured library_id with
        | Some library_id => [library_id]
        | None => get_library_ids cfg media_type
        end in
      (map (λ library_id, PlexRefresh library_id scan_path) library_ids,
       bool_decide (0 < length (filter (λ library_id,
                                          plex_ok library_id scan_path = true)
                                       library_ids)))
  | _, _ => ([], false)
  end.

(** The state the second loop works on: the queue, the calls made so far,
    and whether an exception has left the loop. *)
Record run : Type := Run {
  queue : list scan_item;
  calls : list call;
  raised : bool
}.

(** One turn of the second loop. [leaked] is the variable [scan_item],
    which still holds the last entry the first loop visited. *)
Definition scan_step (cfg : config) (leaked : scan_item) (st : run)
    (entry : str * dir_info) : run :=
  if raised st then st
  else
    let scan_dir := entry.1 in
    let dir_info := entry.2 in
    let file_count := length (items dir_info) in
    let refresh :=
      match configured (_rclone_rc_url cfg) with
      | Some _ => if _refresh_rclone cfg then [RcloneRefresh scan_dir] else []
      | None => []
      end in
    let scan :=
      trigger_plex_scan cfg scan_dir (dir_media_type dir_info)
                        (dir_library_id dir_info) in
    let message :=
      if scan.2
      then if _notify cfg && bool_decide (items dir_info ≠ [])
           then [PostMessage true scan_dir file_count] else []
      else if _notify cfg then [PostMessage false scan_dir file_count] else []
    in
    let calls := calls st ++ refresh ++ scan.1 ++ message in
    match list_remove leaked (queue st) with
    | Some queue => Run queue calls false
    | None =>
        (* [ValueError]: the handler runs the same [remove] on the same
           queue, which raises again and leaves the method *)
        Run (queue st) calls true
    end.

(** [process_scan_queue] on the queue it finds. *)
Definition process_scan_queue (cfg : config) (_scan_queue : list scan_item)
    : run :=
  match last _scan_queue with
  | None => Run _scan_queue [] false
  | Some leaked =>
      let dir_map := foldl (group_step cfg) [] _scan_queue in
      foldl (scan_step cfg leaked) (Run _scan_queue [] false) dir_map
  end.

End Run.

End PlexPartialScan.

(** ** Specification vocabulary for the hosts merge

    These definitions say what the merge is about without following its
    loops; the properties below relate them to the code. *)

Module HostsSpec.
Import PyStr PyDict ImmortalWrtHosts.

(** The last position of a list whose element passes a test. *)
Fixpoint find_last {A} (p : A → bool) (l : list A) : option nat :=
  match l with
  | [] => None
  | x :: l' =>
      match find_last p l' with
      | Some i => Some (S i)
      | None => if p x then Some 0 else None
      end
  end.

(** The local updates whose hostname the index does not know: the lines
    the third loop appends. *)
Definition appended (idx : dict nat) (U : dict str) : dict str :=
  filter (λ kv, dict_get kv.1 idx = None) U.

Section Spec.

Variable ip_address : str → option ip_obj.

(** The hostnames under which some line of the remote file is eligible. *)
Definition remote_hostnames (ignore : list str) (remote_hosts : list str)
    : gset str :=
  list_to_set (omap (remote_entry ip_address ignore) remote_hosts).

(** The hostnames of the eligible lines of the local file. *)
Definition local_hostnames (ignore : list str) (local_hosts : list str)
    : gset str :=
  list_to_set
    (omap (λ raw, fst <$> local_entry ip_address ignore raw) local_hosts).

(** The position of the last remote line eligible under [hostname]. *)
Definition last_remote (ignore : list str) (remote_hosts : list str)
    (hostname : str) : option nat :=
  find_last (λ line, bool_decide (remote_entry ip_address ignore line
                                  = Some hostname))
            remote_hosts.

(** The stripped text of a local line if it is eligible under
    [hostname]. *)
Definition local_line_for (ignore : list str) (hostname raw : str)
    : option str :=
  match local_entry ip_address ignore raw with
  | Some (h, line) => if decide (h = hostname) then Some line else None
  | None => None
  end.

(** The stripped text of the last local line eligible under [hostname]. *)
Definition last_local (ignore : list str) (local_hosts : list str)
    (hostname : str) : option str :=
  last (omap (local_line_for ignore hostname) local_hosts).

(** The address token is an IPv4 address of 127.0.0.0/8 or any IPv6
    address. *)
Definition loopback_or_v6 (ip : str) : Prop :=
  ∃ o, ip_address ip = Some o ∧
       ((∃ a, o = IPv4Address a ∧ N.shiftr a 24 = 127%N)
        ∨ (∃ a, o = IPv6Address a)).

(** The first whitespace-separated token of a stripped line. *)
Definition address_token (line_stripped : str) : option str :=
  head (re_split_ws line_stripped).


(** A line contains a space or a tab. *)
Definition has_space_or_tab (line : str) : bool :=
  contains SPACE line || contains TAB line.

End Spec.

End HostsSpec.

(** ** Specification vocabulary for the path translator *)

Module TranslateSpec.
Import PyStr PlexPartialScan.

(** A triple rule applies to a normalised path when the path starts with
    the rule's local prefix at a segment boundary: it starts with the
    prefix made to end in [/], or it is the prefix. *)
Definition matches_at_boundary (path_normalized : str) (m : mapping) : Prop :=
  ensure_slash (norm_sep (local m)) `prefix_of` path_normalized
  ∨ path_normalized = norm_sep (local m).

(** The path with its first [length old] characters replaced by [new]. *)
Definition substitute_prefix (old new path : str) : str :=
  new ++ drop (length old) path.

(** A text with every backslash (code point 92) turned into a forward
    slash (code point 47), character by character. *)
Definition to_forward_slashes (s : str) : str :=
  map (λ c, if decide (c = 92%N) then 47%N else c) s.

(** [path] starts with [prefix] at a path-segment boundary: it is the
    prefix, or it goes on after the prefix and the cut falls between two
    segments, because the prefix ends in [/] or what follows it begins
    with [/]. *)
Definition starts_at_boundary (prefix path : str) : Prop :=
  path = prefix
  ∨ ∃ rest, path = prefix ++ rest
            ∧ (last prefix = Some 47%N ∨ head rest = Some 47%N).

End TranslateSpec.

(** ** The caller of the merge ([fetch_and_update_hosts]) *)

Module HostsRun.
Import PyStr PyDict ImmortalWrtHosts.

(** What one run of [fetch_and_update_hosts] ends with: the failure
    message for an empty local file, the skip without any write, or the
    write of [hosts_content] to the router. *)
Inductive outcome : Type :=
| LocalHostsFailed
| Skipped
| UpdateRouter (hosts_content : list str).

(** [fetch_and_update_hosts], given what [__get_local_hosts] and
    [__fetch_remote_hosts] returned (each returns the empty list when it
    fails). *)
Definition fetch_and_update_hosts (ip_address : str → option ip_obj)
    (_ignore : option str) (local_hosts remote_hosts : list str) : outcome :=
  match local_hosts with
  | [] => LocalHostsFailed
  | _ :: _ =>
      match merge_hosts_with_local ip_address _ignore local_hosts
                                   remote_hosts with
      | [] => Skipped
      | updated_hosts => UpdateRouter updated_hosts
      end
  end.

End HostsRun.

(** * Properties *)

(** ** Facts about the string and dictionary operations *)

Module PyFacts.
Import PyStr PyDict HostsSpec.

Lemma startswith_prefix (s pre : str) :
  startswith s pre = true ↔ pre `prefix_of` s.
Proof.
  revert s; induction pre as [|p pre IH]; intros s; simpl.
  - split; [intros _; apply prefix_nil | done].
  - destruct s as [|c s].
    + split; [done | intros H; by apply prefix_nil_not in H].
    + rewrite andb_true_iff, N.eqb_eq, IH. split.
      * intros [-> H]. by apply prefix_cons.
      * intros H. split.
        -- symmetry. by eapply prefix_cons_inv_1.
        -- by eapply prefix_cons_inv_2.
Qed.

Lemma startswith_app (pre rest : str) : startswith (pre ++ rest) pre = true.
Proof. apply startswith_prefix. by apply prefix_app_r. Qed.

Lemma replace_first_prefix (old new s : str) :
  startswith s old = true →
  replace_first old new s = new ++ drop (length old) s.
Proof. intros H. destruct s; simpl; by rewrite H. Qed.

Lemma replace_first_app (old new rest : str) :
  replace_first old new (old ++ rest) = new ++ rest.
Proof.
  rewrite replace_first_prefix by apply startswith_app.
  by rewrite drop_app_length.
Qed.


(** *** Stripping *)

Lemma lstrip_with_fixed (p : N → bool) (s : str) :
  (∀ c, head s = Some c → p c = false) → lstrip_with p s = s.
Proof. destruct s as [|c s]; [done|]. intros H. simpl. by rewrite (H c). Qed.

Lemma lstrip_with_head (p : N → bool) (s : str) (c : N) :
  head (lstrip_with p s) = Some c → p c = false.
Proof.
  induction s as [|d s IH]; [done|]. simpl.
  destruct (p d) eqn:E; [done|]. simpl. by intros [= <-].
Qed.

Lemma lstrip_with_idemp (p : N → bool) (s : str) :
  lstrip_with p (lstrip_with p s) = lstrip_with p s.
Proof. apply lstrip_with_fixed, lstrip_with_head. Qed.

Lemma lstrip_with_suffix (p : N → bool) (s : str) :
  lstrip_with p s `suffix_of` s.
Proof.
  induction s as [|d s IH]; [done|]. simpl.
  destruct (p d); [by apply suffix_cons_r | done].
Qed.

Lemma rstrip_with_prefix (p : N → bool) (s : str) :
  rstrip_with p s `prefix_of` s.
Proof.
  unfold rstrip_with.
  rewrite <- (reverse_involutive s) at 2.
  apply suffix_prefix_reverse, lstrip_with_suffix.
Qed.

Lemma prefix_head (s t : str) (c : N) :
  s `prefix_of` t → head s = Some c → head t = Some c.
Proof. intros [k ->]. by destruct s. Qed.

Lemma strip_idemp (s : str) : strip (strip s) = strip s.
Proof.
  unfold strip.
  assert (Hl : lstrip_with is_space
                 (rstrip_with is_space (lstrip_with is_space s))
               = rstrip_with is_space (lstrip_with is_space s)).
  { apply lstrip_with_fixed. intros c Hc.
    eapply lstrip_with_head, prefix_head; [apply rstrip_with_prefix | done]. }
  rewrite Hl. unfold rstrip_with.
  by rewrite reverse_involutive, lstrip_with_idemp.
Qed.

(** *** Dictionaries *)

Lemma dict_get_set_eq {V} (k : str) (v : V) (d : dict V) :
  dict_get k (dict_set k v d) = Some v.
Proof.
  induction d as [|[k' v'] d IH]; simpl.
  - by rewrite decide_True.
  - destruct (decide (k = k')) as [->|Hne]; simpl.
    + by rewrite decide_True.
    + by rewrite decide_False.
Qed.

Lemma dict_get_set_ne {V} (k k0 : str) (v : V) (d : dict V) :
  k ≠ k0 → dict_get k0 (dict_set k v d) = dict_get k0 d.
Proof.
  intros Hne. induction d as [|[k' v'] d IH]; simpl.
  - by rewrite decide_False.
  - destruct (decide (k = k')) as [->|]; simpl.
    + by rewrite !decide_False.
    + destruct (decide (k0 = k')); [done | apply IH].
Qed.

Lemma dict_get_None {V} (k : str) (d : dict V) :
  dict_get k d = None ↔ k ∉ keys d.
Proof.
  unfold keys. induction d as [|[k' v'] d IH]; simpl.
  - split; [intros _; apply not_elem_of_nil | done].
  - rewrite not_elem_of_cons. destruct (decide (k = k')); [|tauto].
    split; [done | tauto].
Qed.

Lemma dict_get_Some_elem {V} (k : str) (v : V) (d : dict V) :
  dict_get k d = Some v → (k, v) ∈ d.
Proof.
  induction d as [|[k' v'] d IH]; simpl; [done|].
  destruct (decide (k = k')) as [->|].
  - intros [= ->]. apply elem_of_cons. by left.
  - intros H. apply elem_of_cons. right. by apply IH.
Qed.

Lemma dict_elem_get {V} (k : str) (v : V) (d : dict V) :
  NoDup (keys d) → (k, v) ∈ d → dict_get k d = Some v.
Proof.
  unfold keys. induction d as [|[k' v'] d IH]; simpl.
  - intros _ H. by apply elem_of_nil in H.
  - intros Hnd Hin. apply NoDup_cons in Hnd as [Hk' Hnd].
    apply elem_of_cons in Hin as [[= -> ->]|Hin].
    + by rewrite decide_True.
    + destruct (decide (k = k')) as [->|]; [|by apply IH].
      exfalso. apply Hk'. apply list_elem_of_fmap. by exists (k', v).
Qed.

Lemma keys_dict_set {V} (k : str) (v : V) (d : dict V) :
  keys (dict_set k v d) = if decide (k ∈ keys d) then keys d else keys d ++ [k].
Proof.
  unfold keys. induction d as [|[k' v'] d IH]; csimpl.
  - done.
  - destruct (decide (k = k')) as [->|Hne]; csimpl.
    + rewrite decide_True; [done | apply elem_of_cons; by left].
    + rewrite IH. destruct (decide (k ∈ d.*1)) as [Hin|Hin].
      * rewrite decide_True; [done | apply elem_of_cons; by right].
      * rewrite decide_False; [done|].
        rewrite not_elem_of_cons. done.
Qed.

Lemma keys_dict_set_NoDup {V} (k : str) (v : V) (d : dict V) :
  NoDup (keys d) → NoDup (keys (dict_set k v d)).
Proof.
  intros Hnd. rewrite keys_dict_set. case_decide; [done|].
  apply NoDup_app. split_and!; [done | | apply NoDup_singleton].
  intros x Hx Hx'. apply list_elem_of_singleton in Hx'. by subst.
Qed.

Lemma elem_of_keys_dict_set {V} (k k0 : str) (v : V) (d : dict V) :
  k0 ∈ keys (dict_set k v d) ↔ k0 = k ∨ k0 ∈ keys d.
Proof.
  rewrite keys_dict_set. case_decide as Hin.
  - split; [tauto | intros [->|]; done].
  - rewrite elem_of_app, list_elem_of_singleton. tauto.
Qed.

(** *** The last position that satisfies a test *)

Lemma find_last_app {A} (p : A → bool) (l1 l2 : list A) :
  find_last p (l1 ++ l2) =
  match find_last p l2 with
  | Some i => Some (length l1 + i)
  | None => find_last p l1
  end.
Proof.
  induction l1 as [|x l1 IH]; simpl; [by destruct (find_last p l2)|].
  rewrite IH. by destruct (find_last p l2).
Qed.

Lemma find_last_snoc {A} (p : A → bool) (l : list A) (x : A) :
  find_last p (l ++ [x]) = if p x then Some (length l) else find_last p l.
Proof.
  rewrite find_last_app. simpl. destruct (p x); [|done].
  f_equal. lia.
Qed.

Lemma find_last_Some {A} (p : A → bool) (l : list A) (i : nat) :
  find_last p l = Some i ↔
  (∃ x, l !! i = Some x ∧ p x = true) ∧
  (∀ j y, i < j → l !! j = Some y → p y = false).
Proof.
  revert i; induction l as [|x l IH]; intros i; simpl.
  - split; [done | intros [[y [Hy _]] _]; done].
  - destruct (find_last p l) as [k|] eqn:E.
    + split.
      * intros [= <-]. destruct (proj1 (IH k) eq_refl) as [Hx Hlast].
        split; [done|].
        intros [|j] y Hj; [lia|]. simpl. apply Hlast. lia.
      * intros [[y [Hy Hpy]] Hlast]. f_equal.
        pose proof (proj1 (IH k) eq_refl) as [[z [Hz Hpz]] Hk].
        destruct i as [|i].
        -- specialize (Hlast (S k) z). simpl in Hlast.
           rewrite Hlast in Hpz; [done | lia | done].
        -- simpl in Hy. destruct (decide (i = k)) as [|Hne]; [congruence|].
           exfalso. destruct (decide (i < k)).
           ++ specialize (Hlast (S k) z). simpl in Hlast.
              rewrite Hlast in Hpz; [done | lia | done].
           ++ rewrite (Hk i y) in Hpy; [done | lia | done].
    + assert (Hnone : ∀ j y, l !! j = Some y → p y = false).
      { intros j y Hy. destruct (p y) eqn:Hp; [|done].
        assert (Hex : ∃ k, find_last p l = Some k); [|destruct Hex; congruence].
        clear -Hy Hp. revert j Hy. induction l as [|z l IHl]; intros j Hy; [done|].
        simpl. destruct j as [|j]; simpl in Hy.
        - injection Hy as ->. rewrite Hp. destruct (find_last p l); eauto.
        - destruct (IHl j Hy) as [k ->]. eauto. }
      destruct (p x) eqn:Hp.
      * split.
        -- intros [= <-]. split; [by exists x|].
           intros [|j] y Hj; [lia|]. simpl. apply Hnone.
        -- intros [[y [Hy Hpy]] _]. destruct i as [|i]; [done|].
           simpl in Hy. by rewrite (Hnone i y) in Hpy.
      * split; [done|]. intros [[y [Hy Hpy]] _]. destruct i as [|i]; simpl in Hy.
        -- congruence.
        -- by rewrite (Hnone i y) in Hpy.
Qed.

Lemma find_last_None {A} (p : A → bool) (l : list A) :
  find_last p l = None ↔ ∀ x, x ∈ l → p x = false.
Proof.
  induction l as [|x l IH]; simpl.
  - split; [intros _ y Hy; by apply elem_of_nil in Hy | done].
  - destruct (find_last p l) as [k|].
    + split; [done|]. intros H.
      assert (Hn : Some k = None); [|done].
      apply IH. intros y Hy. apply H, elem_of_cons. by right.
    + destruct (p x) eqn:Hp.
      * split; [done|]. intros H. rewrite H in Hp; [done|].
        apply elem_of_cons; by left.
      * split; [|done]. intros _ y Hy. apply elem_of_cons in Hy as [->|Hy]; [done|].
        by apply IH.
Qed.

Lemma find_last_fmap {A B} (f : A → B) (p : B → bool) (l : list A) :
  find_last p (f <$> l) = find_last (p ∘ f) l.
Proof. induction l as [|x l IH]; csimpl; [done|]. by rewrite IH. Qed.

End PyFacts.

(** ** The hosts merge *)

Module HostsProofs.
Import PyStr PyDict ImmortalWrtHosts HostsSpec PyFacts.

Section Loops.

Variable ip_address : str → option ip_obj.
Variable ignore : list str.

Local Abbreviation remote_entry := (remote_entry ip_address ignore).
Local Abbreviation local_entry := (local_entry ip_address ignore).
Local Abbreviation scan_remote := (scan_remote ip_address ignore).
Local Abbreviation collect_local := (collect_local ip_address ignore).
Local Abbreviation last_remote := (last_remote ip_address ignore).
Local Abbreviation last_local := (last_local ip_address ignore).
Local Abbreviation local_line_for := (local_line_for ip_address ignore).
Local Abbreviation local_hostnames := (local_hostnames ip_address ignore).
Local Abbreviation remote_hostnames := (remote_hostnames ip_address ignore).

(** *** The first loop *)

Lemma scan_remote_snoc (R : list str) (x : str) :
  scan_remote (R ++ [x]) = remote_step ip_address ignore (scan_remote R) x.
Proof. unfold ImmortalWrtHosts.scan_remote. by rewrite foldl_app. Qed.

Lemma scan_remote_fst (R : list str) : (scan_remote R).1 = R.
Proof.
  induction R as [|x R IH] using rev_ind; [done|].
  rewrite scan_remote_snoc. unfold remote_step.
  destruct (remote_entry x); simpl; by rewrite IH.
Qed.

Lemma scan_remote_get (R : list str) (h : str) :
  dict_get h (scan_remote R).2 = last_remote R h.
Proof.
  unfold HostsSpec.last_remote.
  induction R as [|x R IH] using rev_ind; [done|].
  rewrite scan_remote_snoc, find_last_snoc. unfold remote_step.
  rewrite scan_remote_fst.
  destruct (remote_entry x) as [h'|] eqn:E; simpl.
  - rewrite length_app. simpl.
    replace (length R + 1 - 1) with (length R) by lia.
    destruct (decide (h' = h)) as [->|Hne].
    + by rewrite dict_get_set_eq, bool_decide_eq_true_2.
    + rewrite dict_get_set_ne by done.
      rewrite bool_decide_eq_false_2 by congruence. done.
  - done.
Qed.

Lemma last_remote_Some (R : list str) (h : str) (i : nat) :
  last_remote R h = Some i ↔
  (∃ x, R !! i = Some x ∧ remote_entry x = Some h) ∧
  (∀ j y, i < j → R !! j = Some y → remote_entry y ≠ Some h).
Proof.
  unfold HostsSpec.last_remote. rewrite find_last_Some. split.
  - intros [[x [Hx Hp]] Hlast]. split.
    + exists x. split; [done|]. by apply bool_decide_eq_true in Hp.
    + intros j y Hj Hy. specialize (Hlast j y Hj Hy).
      by apply bool_decide_eq_false in Hlast.
  - intros [[x [Hx Hp]] Hlast]. split.
    + exists x. split; [done|]. by apply bool_decide_eq_true.
    + intros j y Hj Hy. apply bool_decide_eq_false. by eapply Hlast.
Qed.

Lemma last_remote_None (R : list str) (h : str) :
  last_remote R h = None ↔ h ∉ remote_hostnames R.
Proof.
  unfold HostsSpec.last_remote, HostsSpec.remote_hostnames.
  rewrite find_last_None, elem_of_list_to_set, list_elem_of_omap. split.
  - intros H [x [Hx Hh]]. specialize (H x Hx).
    by apply bool_decide_eq_false in H.
  - intros H x Hx. apply bool_decide_eq_false. intros Hh. apply H. eauto.
Qed.

Lemma last_remote_lt (R : list str) (h : str) (i : nat) :
  last_remote R h = Some i → i < length R.
Proof.
  intros H. apply last_remote_Some in H as [[x [Hx _]] _].
  by eapply lookup_lt_Some.
Qed.

Lemma last_remote_inj (R : list str) (h1 h2 : str) (i : nat) :
  last_remote R h1 = Some i → last_remote R h2 = Some i → h1 = h2.
Proof.
  intros H1 H2.
  apply last_remote_Some in H1 as [[x [Hx Hh1]] _].
  apply last_remote_Some in H2 as [[y [Hy Hh2]] _].
  congruence.
Qed.

(** *** The second loop *)

Lemma collect_local_snoc (L : list str) (raw : str) :
  collect_local (L ++ [raw]) = local_step ip_address ignore (collect_local L) raw.
Proof. unfold ImmortalWrtHosts.collect_local. by rewrite foldl_app. Qed.

Lemma collect_local_NoDup (L : list str) : NoDup (keys (collect_local L)).
Proof.
  induction L as [|raw L IH] using rev_ind; [apply NoDup_nil_2|].
  rewrite collect_local_snoc. unfold local_step.
  destruct (local_entry raw) as [[h l]|]; [|done].
  by apply keys_dict_set_NoDup.
Qed.

Lemma collect_local_get (L : list str) (h : str) :
  dict_get h (collect_local L) = last_local L h.
Proof.
  unfold HostsSpec.last_local.
  induction L as [|raw L IH] using rev_ind; [done|].
  rewrite collect_local_snoc, omap_app. unfold local_step. simpl.
  unfold HostsSpec.local_line_for at 2.
  destruct (local_entry raw) as [[h' l]|] eqn:E.
  - destruct (decide (h' = h)) as [->|Hne].
    + by rewrite dict_get_set_eq, last_snoc.
    + rewrite dict_get_set_ne by done. by rewrite app_nil_r.
  - by rewrite app_nil_r.
Qed.

Lemma last_local_Some (L : list str) (h l : str) :
  last_local L h = Some l → ∃ raw, raw ∈ L ∧ local_entry raw = Some (h, l).
Proof.
  unfold HostsSpec.last_local. intros H.
  assert (Hin : l ∈ omap (local_line_for h) L).
  { apply last_Some in H as [l' ->]. apply elem_of_app. right.
    by apply list_elem_of_singleton. }
  apply list_elem_of_omap in Hin as [raw [Hraw Hl]]. exists raw. split; [done|].
  unfold HostsSpec.local_line_for in Hl.
  destruct (local_entry raw) as [[h' l']|]; [|done].
  destruct (decide (h' = h)) as [->|]; [|done]. by injection Hl as ->.
Qed.

Lemma last_local_is_Some (L : list str) (h : str) :
  is_Some (last_local L h) ↔ h ∈ local_hostnames L.
Proof.
  unfold HostsSpec.local_hostnames.
  rewrite elem_of_list_to_set, list_elem_of_omap. split.
  - intros [l Hl]. apply last_local_Some in Hl as [raw [Hraw Hl]].
    exists raw. split; [done|]. by rewrite Hl.
  - intros [raw [Hraw Hh]]. unfold HostsSpec.last_local.
    apply last_is_Some. intros Hnil.
    destruct (local_entry raw) as [[h' l]|] eqn:E; [|done].
    injection Hh as ->.
    assert (Hin : l ∈ omap (local_line_for h) L).
    { apply list_elem_of_omap. exists raw. split; [done|].
      unfold HostsSpec.local_line_for. rewrite E. by rewrite decide_True. }
    rewrite Hnil in Hin. by apply elem_of_nil in Hin.
Qed.

Lemma collect_local_keys (L : list str) (h : str) :
  h ∈ keys (collect_local L) ↔ h ∈ local_hostnames L.
Proof.
  rewrite <- last_local_is_Some, <- collect_local_get.
  rewrite <- not_eq_None_Some, dict_get_None.
  destruct (decide (h ∈ keys (collect_local L))); split; tauto.
Qed.

Lemma collect_local_elem (L : list str) (h l : str) :
  (h, l) ∈ collect_local L ↔ last_local L h = Some l.
Proof.
  rewrite <- collect_local_get. split.
  - apply dict_elem_get, collect_local_NoDup.
  - apply dict_get_Some_elem.
Qed.

(** *** The third loop *)

Lemma apply_updates_snoc (idx : dict nat) (U : dict str) (kv : str * str)
    (m0 : list str) :
  apply_updates idx (U ++ [kv]) m0
  = apply_update idx (apply_updates idx U m0) kv.
Proof. unfold apply_updates. by rewrite foldl_app. Qed.

Lemma appended_snoc_hit (idx : dict nat) (U : dict str) (kv : str * str)
    (i : nat) :
  dict_get kv.1 idx = Some i → appended idx (U ++ [kv]) = appended idx U.
Proof.
  intros H. unfold appended. rewrite filter_app.
  rewrite filter_cons_False by congruence.
  by rewrite filter_nil, app_nil_r.
Qed.

Lemma appended_snoc_miss (idx : dict nat) (U : dict str) (kv : str * str) :
  dict_get kv.1 idx = None → appended idx (U ++ [kv]) = appended idx U ++ [kv].
Proof.
  intros H. unfold appended. rewrite filter_app.
  by rewrite filter_cons_True, filter_nil.
Qed.

(** The loop never leaves the list, keeps the first [length m0] positions
    that no update is aimed at, and puts the appended lines behind them. *)
Lemma apply_updates_shape (idx : dict nat) (U : dict str) (m0 : list str) :
  (∀ h i, dict_get h idx = Some i → i < length m0) →
  ∃ M, apply_updates idx U m0 = Some M
       ∧ length M = length m0 + length (appended idx U)
       ∧ drop (length m0) M = (appended idx U).*2
       ∧ (∀ i, i < length m0 →
               (∀ h l, (h, l) ∈ U → dict_get h idx ≠ Some i) →
               M !! i = m0 !! i).
Proof.
  intros Hlt. induction U as [|[h l] U IH] using rev_ind.
  - exists m0. split_and!; [done | simpl; lia | apply drop_all | done].
  - destruct IH as (M & HM & Hlen & Hdrop & Hframe).
    rewrite apply_updates_snoc, HM. simpl.
    destruct (dict_get h idx) as [i|] eqn:Hi.
    + pose proof (Hlt h i Hi) as Hi'.
      rewrite decide_True by lia.
      exists (<[i:=l]> M).
      rewrite (appended_snoc_hit idx U (h, l) i) by done.
      split_and!; [done | by rewrite length_insert | |].
      * by rewrite drop_insert_lt.
      * intros j Hj Hfree.
        rewrite list_lookup_insert_ne.
        -- apply Hframe; [done|]. intros h' l' Hin. apply (Hfree h' l').
           apply elem_of_app. by left.
        -- intros ->. apply (Hfree h l); [|done].
           apply elem_of_app. right. by apply list_elem_of_singleton.
    + exists (M ++ [l]).
      rewrite (appended_snoc_miss idx U (h, l)) by done.
      split_and!; [done | | |].
      * rewrite !length_app, Hlen. simpl. lia.
      * rewrite drop_app_le by lia. rewrite Hdrop. by rewrite fmap_app.
      * intros j Hj Hfree. rewrite lookup_app_l by lia.
        apply Hframe; [done|]. intros h' l' Hin. apply (Hfree h' l').
        apply elem_of_app. by left.
Qed.

(** Every update aimed at a position of the index ends up there. *)
Lemma apply_updates_hit (idx : dict nat) (U : dict str) (m0 M : list str) :
  (∀ h i, dict_get h idx = Some i → i < length m0) →
  (∀ h1 h2 i, dict_get h1 idx = Some i → dict_get h2 idx = Some i → h1 = h2) →
  NoDup (keys U) →
  apply_updates idx U m0 = Some M →
  ∀ h l i, (h, l) ∈ U → dict_get h idx = Some i → M !! i = Some l.
Proof.
  intros Hlt Hinj. revert M.
  induction U as [|[h' l'] U IH] using rev_ind; intros M Hnd HM h l i Hin Hi.
  - by apply elem_of_nil in Hin.
  - unfold keys in Hnd. rewrite fmap_app in Hnd.
    apply NoDup_app in Hnd as (HndU & Hfresh & _).
    destruct (apply_updates_shape idx U m0 Hlt) as (M' & HM' & Hlen & _ & _).
    rewrite apply_updates_snoc, HM' in HM. simpl in HM.
    apply elem_of_app in Hin as [Hin|Hin].
    + assert (Hne : h ≠ h').
      { intros ->. apply (Hfresh h').
        - apply list_elem_of_fmap. by exists (h', l).
        - simpl. by apply list_elem_of_singleton. }
      pose proof (IH M' HndU HM' h l i Hin Hi) as Hl.
      destruct (dict_get h' idx) as [i'|] eqn:Hi'.
      * pose proof (Hlt h' i' Hi').
        rewrite decide_True in HM by lia. injection HM as <-.
        rewrite list_lookup_insert_ne; [done|].
        intros ->. apply Hne. by eapply Hinj.
      * injection HM as <-. rewrite lookup_app_l; [done|].
        by eapply lookup_lt_Some.
    + apply list_elem_of_singleton in Hin. injection Hin as -> ->.
      rewrite Hi in HM. pose proof (Hlt h' i Hi).
      rewrite decide_True in HM by lia. injection HM as <-.
      apply list_lookup_insert_eq. lia.
Qed.

(** Updates that are already in place leave the list as it is. *)
Lemma apply_updates_fixed (idx : dict nat) (U : dict str) (M : list str) :
  (∀ h l, (h, l) ∈ U → ∃ p, dict_get h idx = Some p ∧ M !! p = Some l) →
  apply_updates idx U M = Some M.
Proof.
  unfold apply_updates. induction U as [|[h l] U IH]; intros H; [done|].
  simpl. destruct (H h l) as (p & Hp & Hl); [apply elem_of_cons; by left|].
  rewrite Hp. rewrite decide_True by (by eapply lookup_lt_Some).
  rewrite list_insert_id by done.
  apply IH. intros h' l' Hin. apply H. apply elem_of_cons. by right.
Qed.

End Loops.

(** *** The merge as a whole *)

Section MergeFacts.

Variable ip_address : str → option ip_obj.
Variable _ignore : option str.
Variables local_hosts remote_hosts : list str.

Local Abbreviation ignore := (ignore_list _ignore).
Local Abbreviation idx := (scan_remote ip_address ignore remote_hosts).2.
Local Abbreviation updates := (collect_local ip_address ignore local_hosts).
Local Abbreviation merged :=
  (merge_hosts_with_local ip_address _ignore local_hosts remote_hosts).

Lemma idx_lt (h : str) (i : nat) :
  dict_get h idx = Some i → i < length remote_hosts.
Proof. rewrite scan_remote_get. apply last_remote_lt. Qed.

Lemma idx_inj (h1 h2 : str) (i : nat) :
  dict_get h1 idx = Some i → dict_get h2 idx = Some i → h1 = h2.
Proof. rewrite !scan_remote_get. apply last_remote_inj. Qed.

(** The [except] clause is never reached: the third loop always returns
    its list. *)
Lemma merge_run : apply_updates idx updates remote_hosts = Some merged.
Proof.
  unfold merge_hosts_with_local. rewrite scan_remote_fst.
  destruct (apply_updates_shape idx updates remote_hosts idx_lt)
    as (M & HM & _).
  by rewrite HM.
Qed.

Lemma merge_length_appended :
  length merged = length remote_hosts + length (appended idx updates).
Proof.
  destruct (apply_updates_shape idx updates remote_hosts idx_lt)
    as (M & HM & Hlen & _).
  rewrite merge_run in HM. by injection HM as <-.
Qed.

Lemma merge_drop :
  drop (length remote_hosts) merged = (appended idx updates).*2.
Proof.
  destruct (apply_updates_shape idx updates remote_hosts idx_lt)
    as (M & HM & _ & Hdrop & _).
  rewrite merge_run in HM. by injection HM as <-.
Qed.

Lemma merge_frame (i : nat) :
  i < length remote_hosts →
  (∀ h, h ∈ local_hostnames ip_address ignore local_hosts →
        last_remote ip_address ignore remote_hosts h ≠ Some i) →
  merged !! i = remote_hosts !! i.
Proof.
  intros Hi Hfree.
  destruct (apply_updates_shape idx updates remote_hosts idx_lt)
    as (M & HM & _ & _ & Hframe).
  rewrite merge_run in HM. injection HM as <-.
  apply Hframe; [done|]. intros h l Hin. rewrite scan_remote_get.
  apply Hfree. apply collect_local_keys.
  apply list_elem_of_fmap. by exists (h, l).
Qed.

Lemma merge_hit (h l : str) (i : nat) :
  last_local ip_address ignore local_hosts h = Some l →
  last_remote ip_address ignore remote_hosts h = Some i →
  merged !! i = Some l.
Proof.
  intros Hl Hi.
  eapply (apply_updates_hit idx updates remote_hosts merged idx_lt idx_inj).
  - apply collect_local_NoDup.
  - apply merge_run.
  - by apply collect_local_elem.
  - by rewrite scan_remote_get.
Qed.

Lemma appended_keys_NoDup : NoDup (appended idx updates).*1.
Proof.
  eapply sublist_NoDup.
  - apply (collect_local_NoDup ip_address ignore local_hosts).
  - unfold keys, appended. apply fmap_sublist, sublist_filter.
Qed.

Lemma appended_elem (h l : str) :
  (h, l) ∈ appended idx updates ↔
  last_local ip_address ignore local_hosts h = Some l
  ∧ h ∉ remote_hostnames ip_address ignore remote_hosts.
Proof.
  unfold appended. rewrite list_elem_of_filter. simpl.
  rewrite scan_remote_get, last_remote_None, collect_local_elem. tauto.
Qed.



End MergeFacts.

(** *** What the line tests accept *)

Section Entries.

Variable ip_address : str → option ip_obj.
Variable ignore : list str.

Local Abbreviation should_ignore_ip := (should_ignore_ip ip_address).
Local Abbreviation remote_entry := (remote_entry ip_address ignore).
Local Abbreviation local_entry := (local_entry ip_address ignore).
Local Abbreviation loopback_or_v6 := (loopback_or_v6 ip_address).

Lemma should_ignore_ip_spec (ip : str) :
  should_ignore_ip ip = true ↔ loopback_or_v6 ip.
Proof.
  unfold ImmortalWrtHosts.should_ignore_ip, HostsSpec.loopback_or_v6.
  destruct (ip_address ip) as [[a|a]|]; simpl.
  - rewrite orb_false_r, N.eqb_eq. split.
    + intros H. exists (IPv4Address a). split; [done|]. left. by exists a.
    + intros (o & [= <-] & [(b & [= <-] & Hb)|(b & Hb)]); done.
  - rewrite orb_true_r. split; [|done]. intros _.
    exists (IPv6Address a). split; [done|]. right. by exists a.
  - split; [done|]. by intros (o & Ho & _).
Qed.


Lemma local_entry_inv (raw h l : str) :
  local_entry raw = Some (h, l) →
  l = strip (lstrip_chars BOM raw)
  ∧ startswith l HASH = false
  ∧ existsb (λ ign, contains ign l) ignore = false
  ∧ truthy l = true
  ∧ ∃ ip rest, re_split_ws l = ip :: h :: rest
               ∧ should_ignore_ip ip = false
               ∧ in_list h ignore = false
               ∧ in_list ip ignore = false.
Proof.
  unfold ImmortalWrtHosts.local_entry.
  set (line := strip (lstrip_chars BOM raw)).
  destruct (startswith line HASH) eqn:Hhash; [done|].
  destruct (existsb (λ ign, contains ign line) ignore) eqn:Hign; [done|].
  destruct (truthy line) eqn:Ht; [|done]. simpl.
  destruct (re_split_ws line) as [|ip [|hostname rest]] eqn:Hparts; [done..|].
  destruct (should_ignore_ip ip) eqn:Hip; [done|].
  destruct (in_list hostname ignore) eqn:Hh; [done|].
  destruct (in_list ip ignore) eqn:Hi; [done|]. simpl.
  intros [= <- <-]. split_and!; try done. by exists ip, rest.
Qed.

(** A local line that is kept and contains a space or a tab is, as a
    remote line, recorded under the same hostname. *)
Lemma local_entry_remote (raw h l : str) :
  local_entry raw = Some (h, l) →
  has_space_or_tab l = true →
  remote_entry l = Some h.
Proof.
  intros Hl Hsp.
  apply local_entry_inv in Hl
    as (Hstrip & Hhash & _ & Ht & ip & rest & Hparts & Hip & Hh & Hi).
  unfold ImmortalWrtHosts.remote_entry.
  assert (Hfix : strip l = l) by (rewrite Hstrip; apply strip_idemp).
  rewrite Hfix, Hhash, Ht. unfold has_space_or_tab in Hsp. rewrite Hsp.
  simpl. by rewrite Hparts, Hip, Hh, Hi.
Qed.

End Entries.

(** *** Merging the same local file again *)

Section Again.

Variable ip_address : str → option ip_obj.
Variable _ignore : option str.
Variables local_hosts remote_hosts : list str.

Local Abbreviation ignore := (ignore_list _ignore).
Local Abbreviation idx := (scan_remote ip_address ignore remote_hosts).2.
Local Abbreviation updates := (collect_local ip_address ignore local_hosts).
Local Abbreviation merged :=
  (merge_hosts_with_local ip_address _ignore local_hosts remote_hosts).
Local Abbreviation remote_entry := (remote_entry ip_address ignore).
Local Abbreviation last_remote := (last_remote ip_address ignore).
Local Abbreviation last_local := (last_local ip_address ignore local_hosts).

Hypothesis updates_spaced :
  ∀ h l, last_local h = Some l → has_space_or_tab l = true.

Lemma update_remote_entry (h l : str) :
  last_local h = Some l → remote_entry l = Some h.
Proof.
  intros Hl. destruct (last_local_Some _ _ _ _ _ Hl) as (raw & _ & Hraw).
  eapply local_entry_remote; eauto.
Qed.

(** Below [length remote_hosts] every line of the result is recorded under
    the hostname of the remote line it stands for. *)
Lemma merged_entry_low (j : nat) (y : str) :
  j < length remote_hosts → merged !! j = Some y →
  ∃ x, remote_hosts !! j = Some x ∧ remote_entry y = remote_entry x.
Proof.
  intros Hj Hy.
  destruct (lookup_lt_is_Some_2 remote_hosts j Hj) as [x Hx].
  exists x. split; [done|].
  assert (Hframe : (∀ h, last_remote remote_hosts h = Some j →
                         last_local h = None) → y = x).
  { intros Hfree.
    rewrite (merge_frame ip_address _ignore local_hosts remote_hosts j Hj)
      in Hy; [congruence|].
    intros h Hh Hi. apply last_local_is_Some in Hh as [l Hl].
    rewrite (Hfree h Hi) in Hl. done. }
  destruct (remote_entry x) as [h|] eqn:Hex.
  - destruct (decide (last_remote remote_hosts h = Some j)) as [Hi|Hi];
      [destruct (last_local h) as [l|] eqn:Hl|].
    + rewrite (merge_hit ip_address _ignore local_hosts remote_hosts h l j Hl Hi)
        in Hy.
      injection Hy as <-. by apply update_remote_entry.
    + rewrite Hframe; [done|]. intros h' Hi'.
      by rewrite (last_remote_inj _ _ _ _ _ _ Hi' Hi).
    + rewrite Hframe; [done|]. intros h' Hi'. exfalso. apply Hi.
      apply last_remote_Some in Hi' as [(x' & Hx' & Hex') Hlast].
      assert (h' = h) as -> by congruence.
      apply last_remote_Some. split; [by exists x'|done].
  - rewrite Hframe; [done|]. intros h' Hi'.
    apply last_remote_Some in Hi' as [(x' & Hx' & Hex') _]. congruence.
Qed.

(** From [length remote_hosts] on, the lines are the appended updates. *)
Lemma merged_entry_high (j : nat) (y : str) :
  length remote_hosts ≤ j → merged !! j = Some y →
  ∃ h, appended idx updates !! (j - length remote_hosts) = Some (h, y).
Proof.
  intros Hj Hy.
  assert (Hd : drop (length remote_hosts) merged
               !! (j - length remote_hosts) = Some y).
  { rewrite lookup_drop. by replace (length remote_hosts
                                   + (j - length remote_hosts)) with j by lia. }
  rewrite merge_drop, list_lookup_fmap in Hd.
  destruct (appended idx updates !! (j - length remote_hosts))
    as [[h y']|]; [|done].
  injection Hd as <-. by exists h.
Qed.

(** Every update is found by the index of the merged file, at the place
    where the merge has put it. *)
Lemma merged_finds_update (h l : str) :
  last_local h = Some l →
  ∃ p, last_remote merged h = Some p ∧ merged !! p = Some l.
Proof.
  intros Hl. pose proof (update_remote_entry h l Hl) as Hentry.
  destruct (last_remote remote_hosts h) as [i|] eqn:Hi.
  - pose proof (merge_hit ip_address _ignore local_hosts remote_hosts
                          h l i Hl Hi) as Hhit.
    exists i. split; [|done]. apply last_remote_Some.
    split; [by exists l|]. intros j y Hij Hy Hey.
    destruct (decide (j < length remote_hosts)) as [Hj|Hj].
    + destruct (merged_entry_low j y Hj Hy) as (x & Hx & Hxy).
      apply last_remote_Some in Hi as [_ Hlast].
      apply (Hlast j x Hij Hx). congruence.
    + destruct (merged_entry_high j y ltac:(lia) Hy) as (h' & Hk).
      apply list_elem_of_lookup_2, appended_elem in Hk as [Hl' Hr'].
      pose proof (update_remote_entry h' y Hl') as Hey'.
      assert (h' = h) as -> by congruence.
      apply last_remote_None in Hr'. congruence.
  - assert (Hin : (h, l) ∈ appended idx updates).
    { apply appended_elem. split; [done|]. by apply last_remote_None. }
    apply list_elem_of_lookup in Hin as [k Hk].
    assert (Hp : merged !! (length remote_hosts + k) = Some l).
    { rewrite <- lookup_drop, merge_drop, list_lookup_fmap. by rewrite Hk. }
    exists (length remote_hosts + k). split; [|done]. apply last_remote_Some.
    split; [by exists l|]. intros j y Hj Hy Hey.
    destruct (merged_entry_high j y ltac:(lia) Hy) as (h' & Hk').
    pose proof Hk' as Hin'.
    apply list_elem_of_lookup_2, appended_elem in Hin' as [Hl' _].
    pose proof (update_remote_entry h' y Hl') as Hey'.
    assert (h' = h) as -> by congruence.
    assert (Heq : j - length remote_hosts = k); [|lia].
    eapply (NoDup_lookup _ _ _ h
              (appended_keys_NoDup ip_address _ignore local_hosts remote_hosts)).
    + rewrite list_lookup_fmap. by rewrite Hk'.
    + rewrite list_lookup_fmap. by rewrite Hk.
Qed.

Lemma merge_again :
  merge_hosts_with_local ip_address _ignore local_hosts merged = merged.
Proof.
  unfold merge_hosts_with_local at 1. rewrite scan_remote_fst.
  rewrite apply_updates_fixed; [done|].
  intros h l Hin. apply collect_local_elem in Hin.
  destruct (merged_finds_update h l Hin) as (p & Hp & Hl).
  exists p. by rewrite scan_remote_get.
Qed.

End Again.

(** *** The address filter on single lines *)

Section Filter.

Variable ip_address : str → option ip_obj.
Variable ignore : list str.

Lemma remote_entry_filtered (line a : str) :
  address_token (strip line) = Some a →
  loopback_or_v6 ip_address a →
  remote_entry ip_address ignore line = None.
Proof.
  intros Ha Hf. apply should_ignore_ip_spec in Hf.
  unfold remote_entry. unfold address_token in Ha.
  destruct (negb (startswith (strip line) HASH) && truthy (strip line)
            && (contains SPACE (strip line) || contains TAB (strip line)));
    [|done].
  destruct (re_split_ws (strip line)) as [|ip [|hostname rest]]; [done..|].
  injection Ha as ->. by rewrite Hf.
Qed.

Lemma local_entry_filtered (raw a : str) :
  address_token (strip (lstrip_chars BOM raw)) = Some a →
  loopback_or_v6 ip_address a →
  local_entry ip_address ignore raw = None.
Proof.
  intros Ha Hf. apply should_ignore_ip_spec in Hf.
  unfold local_entry. unfold address_token in Ha.
  destruct (startswith (strip (lstrip_chars BOM raw)) HASH
            || existsb (λ ign, contains ign (strip (lstrip_chars BOM raw)))
                       ignore
            || negb (truthy (strip (lstrip_chars BOM raw)))); [done|].
  destruct (re_split_ws (strip (lstrip_chars BOM raw)))
    as [|ip [|hostname rest]]; [done..|].
  injection Ha as ->. by rewrite Hf.
Qed.

Lemma local_entry_substring (raw ign : str) :
  ign ∈ ignore →
  contains ign (strip (lstrip_chars BOM raw)) = true →
  local_entry ip_address ignore raw = None.
Proof.
  intros Hin Hc. unfold local_entry.
  assert (Hex : existsb (λ ign, contains ign (strip (lstrip_chars BOM raw)))
                        ignore = true).
  { apply existsb_exists. exists ign. split; [|done].
    by apply list_elem_of_In. }
  rewrite Hex. by rewrite orb_true_r.
Qed.


Lemma in_list_false (x : str) : in_list x ignore = false ↔ x ∉ ignore.
Proof. unfold in_list. apply bool_decide_eq_false. Qed.

End Filter.

(** *** The properties of the merge *)


(** C3. Every remote line that is not at the recorded position of an
    updated hostname stays, unchanged, at its index; in particular a line
    that is recorded under no hostname, or under a hostname without a local
    update. The update of a hostname replaces the line at the position of
    the last remote line recorded under it. The lines from index
    [length remote_hosts] on are exactly the updates of the hostnames the
    remote file does not have. *)
Theorem merged_keeps_remote_layout (ip_address : str → option ip_obj)
    (_ignore : option str) (local_hosts remote_hosts : list str) :
  (∀ i line,
     remote_hosts !! i = Some line →
     (∀ h, is_Some (last_local ip_address (ignore_list _ignore) local_hosts h) →
           last_remote ip_address (ignore_list _ignore) remote_hosts h
           ≠ Some i) →
     merge_hosts_with_local ip_address _ignore local_hosts remote_hosts !! i
     = Some line)
  ∧ (∀ i line,
       remote_hosts !! i = Some line →
       (∀ h, remote_entry ip_address (ignore_list _ignore) line = Some h →
             last_local ip_address (ignore_list _ignore) local_hosts h = None) →
       merge_hosts_with_local ip_address _ignore local_hosts remote_hosts !! i
       = Some line)
  ∧ (∀ h l i x,
       last_local ip_address (ignore_list _ignore) local_hosts h = Some l →
       remote_hosts !! i = Some x →
       remote_entry ip_address (ignore_list _ignore) x = Some h →
       (∀ j y, i < j → remote_hosts !! j = Some y →
               remote_entry ip_address (ignore_list _ignore) y ≠ Some h) →
       merge_hosts_with_local ip_address _ignore local_hosts remote_hosts !! i
       = Some l)
  ∧ (∀ j y,
       length remote_hosts ≤ j →
       merge_hosts_with_local ip_address _ignore local_hosts remote_hosts !! j
       = Some y →
       ∃ h, last_local ip_address (ignore_list _ignore) local_hosts h = Some y
            ∧ last_remote ip_address (ignore_list _ignore) remote_hosts h
              = None)
  ∧ (∀ h l,
       last_local ip_address (ignore_list _ignore) local_hosts h = Some l →
       last_remote ip_address (ignore_list _ignore) remote_hosts h = None →
       ∃ j, length remote_hosts ≤ j
            ∧ merge_hosts_with_local ip_address _ignore local_hosts
                                     remote_hosts !! j
              = Some l).
Proof.
  assert (Hframe : ∀ i line,
     remote_hosts !! i = Some line →
     (∀ h, is_Some (last_local ip_address (ignore_list _ignore) local_hosts h) →
           last_remote ip_address (ignore_list _ignore) remote_hosts h
           ≠ Some i) →
     merge_hosts_with_local ip_address _ignore local_hosts remote_hosts !! i
     = Some line).
  { intros i line Hline Hfree. rewrite merge_frame; [done| |].
    - by eapply lookup_lt_Some.
    - intros h Hh. apply Hfree. by apply last_local_is_Some. }
  split_and!.
  - exact Hframe.
  - intros i line Hline Hfree. apply Hframe; [done|].
    intros h [l Hl] Hi.
    apply last_remote_Some in Hi as [(x & Hx & Hex) _].
    assert (x = line) as -> by congruence.
    rewrite (Hfree h Hex) in Hl. done.
  - intros h l i x Hl Hx Hex Hlast. eapply merge_hit; [done|].
    apply last_remote_Some. split; [by exists x | done].
  - intros j y Hj Hy.
    assert (Hd : drop (length remote_hosts)
                   (merge_hosts_with_local ip_address _ignore local_hosts
                                           remote_hosts)
                 !! (j - length remote_hosts) = Some y).
    { rewrite lookup_drop.
      by replace (length remote_hosts + (j - length remote_hosts))
        with j by lia. }
    rewrite merge_drop in Hd. apply list_elem_of_lookup_2 in Hd.
    apply list_elem_of_fmap in Hd as [[h y'] [-> Hin]].
    apply appended_elem in Hin as [Hl Hr]. exists h. split; [done|].
    by apply last_remote_None.
  - intros h l Hl Hr.
    assert (Hin : (h, l) ∈ appended
                    (scan_remote ip_address (ignore_list _ignore)
                                 remote_hosts).2
                    (collect_local ip_address (ignore_list _ignore)
                                   local_hosts)).
    { apply appended_elem. split; [done|]. by apply last_remote_None. }
    apply list_elem_of_lookup in Hin as [k Hk].
    exists (length remote_hosts + k). split; [lia|].
    rewrite <- lookup_drop, merge_drop, list_lookup_fmap. by rewrite Hk.
Qed.

(** C4. A line whose address token is an address of 127.0.0.0/8 or an IPv6
    address is recorded by neither loop, whatever the ignore list: the
    positions of the remote index hold no such line, no stored update is
    one, and such a remote line is found unchanged at its index in the
    result. *)
Theorem address_filter_excludes (ip_address : str → option ip_obj)
    (_ignore : option str) (local_hosts remote_hosts : list str) :
  (∀ line a,
     address_token (strip line) = Some a → loopback_or_v6 ip_address a →
     remote_entry ip_address (ignore_list _ignore) line = None)
  ∧ (∀ h i line a,
       dict_get h (scan_remote ip_address (ignore_list _ignore)
                               remote_hosts).2 = Some i →
       remote_hosts !! i = Some line →
       address_token (strip line) = Some a →
       ¬ loopback_or_v6 ip_address a)
  ∧ (∀ raw a,
       address_token (strip (lstrip_chars BOM raw)) = Some a →
       loopback_or_v6 ip_address a →
       local_entry ip_address (ignore_list _ignore) raw = None)
  ∧ (∀ h l a,
       (h, l) ∈ collect_local ip_address (ignore_list _ignore) local_hosts →
       address_token l = Some a →
       ¬ loopback_or_v6 ip_address a)
  ∧ (∀ i line a,
       remote_hosts !! i = Some line →
       address_token (strip line) = Some a → loopback_or_v6 ip_address a →
       merge_hosts_with_local ip_address _ignore local_hosts remote_hosts !! i
       = Some line).
Proof.
  split_and!.
  - apply remote_entry_filtered.
  - intros h i line a Hi Hline Ha Hf.
    rewrite scan_remote_get in Hi.
    apply last_remote_Some in Hi as [(x & Hx & Hex) _].
    assert (x = line) as -> by congruence.
    by rewrite (remote_entry_filtered _ _ _ _ Ha Hf) in Hex.
  - apply local_entry_filtered.
  - intros h l a Hin Ha Hf.
    apply collect_local_elem, last_local_Some in Hin as (raw & _ & Hraw).
    apply local_entry_inv in Hraw
      as (_ & _ & _ & _ & ip & rest & Hparts & Hip & _).
    unfold address_token in Ha. rewrite Hparts in Ha. injection Ha as ->.
    apply should_ignore_ip_spec in Hf. congruence.
  - intros i line a Hline Ha Hf.
    rewrite merge_frame; [done| |].
    + by eapply lookup_lt_Some.
    + intros h _ Hi.
      apply last_remote_Some in Hi as [(x & Hx & Hex) _].
      assert (x = line) as -> by congruence.
      by rewrite (remote_entry_filtered _ _ _ _ Ha Hf) in Hex.
Qed.

(** C2, as the code has it. When every line stored as a local update
    contains a space or a tab, merging the local file into the result of
    the merge gives that result again. *)
Theorem merge_idempotent_spaced (ip_address : str → option ip_obj)
    (_ignore : option str) (local_hosts remote_hosts : list str) :
  forallb (λ kv, has_space_or_tab kv.2)
          (collect_local ip_address (ignore_list _ignore) local_hosts)
  = true →
  merge_hosts_with_local ip_address _ignore local_hosts
    (merge_hosts_with_local ip_address _ignore local_hosts remote_hosts)
  = merge_hosts_with_local ip_address _ignore local_hosts remote_hosts.
Proof.
  intros Hsp. apply merge_again. intros h l Hl.
  apply collect_local_elem in Hl.
  rewrite forallb_forall in Hsp.
  apply (Hsp (h, l)). by apply list_elem_of_In.
Qed.


(** *** The merge on a small pair of files *)

Definition local_sample : list str :=
  [BOM ++ lit "# local hosts";
   lit "1.2.3.4 a.com";
   lit "127.0.0.1 localhost";
   lit "5.6.7.8 b.com";
   lit "::1 ip6-loop";
   lit "9.9.9.9 a.com  "].

Definition remote_sample : list str :=
  [lit "# remote";
   lit "10.0.0.1 b.com";
   lit "::1 ip6";
   lit "";
   lit "10.0.0.2 b.com";
   lit "10.0.0.3 c.com"].

Definition merged_sample : list str :=
  [lit "# remote";
   lit "10.0.0.1 b.com";
   lit "::1 ip6";
   lit "";
   lit "5.6.7.8 b.com";
   lit "10.0.0.3 c.com";
   lit "9.9.9.9 a.com"].

Lemma merge_sample :
  merge_hosts_with_local plain_ip_address None local_sample remote_sample
  = merged_sample.
Proof. vm_compute. reflexivity. Qed.


Lemma merged_keeps_remote_layout_witness :
  merge_hosts_with_local plain_ip_address None local_sample remote_sample !! 0
  = Some (lit "# remote")
  ∧ merge_hosts_with_local plain_ip_address None local_sample remote_sample
    !! 4
    = Some (lit "5.6.7.8 b.com").
Proof.
  pose proof (merged_keeps_remote_layout plain_ip_address None local_sample
                                         remote_sample)
    as (_ & Hkeep & Hupd & _).
  split.
  - apply Hkeep; [reflexivity|].
    intros h Hh. vm_compute in Hh. discriminate Hh.
  - apply (Hupd (lit "b.com") (lit "5.6.7.8 b.com") 4 (lit "10.0.0.2 b.com"));
      [vm_compute; reflexivity | reflexivity | vm_compute; reflexivity |].
    intros j y Hj Hy. destruct j as [|[|[|[|[|[|j]]]]]]; try lia.
    + injection Hy as <-. vm_compute. discriminate.
    + simpl in Hy. discriminate Hy.
Defined.

Lemma address_filter_excludes_witness :
  merge_hosts_with_local plain_ip_address None local_sample remote_sample !! 2
  = Some (lit "::1 ip6")
  ∧ local_entry plain_ip_address (ignore_list (Some (lit "example.org")))
                (lit "127.0.0.53 resolver") = None.
Proof.
  split.
  - pose proof (address_filter_excludes plain_ip_address None local_sample
                                        remote_sample)
      as (_ & _ & _ & _ & Hcopy).
    apply (Hcopy 2 (lit "::1 ip6") (lit "::1")); [reflexivity | reflexivity |].
    exists (IPv6Address 1). split; [reflexivity|]. right. by exists 1%N.
  - pose proof (address_filter_excludes plain_ip_address
                  (Some (lit "example.org")) [] [])
      as (_ & _ & Hlocal & _).
    apply (Hlocal (lit "127.0.0.53 resolver") (lit "127.0.0.53"));
      [reflexivity|].
    exists (IPv4Address 2130706485). split; [reflexivity|]. left.
    by exists 2130706485%N.
Defined.

Lemma merge_idempotent_spaced_witness :
  merge_hosts_with_local plain_ip_address None local_sample
    (merge_hosts_with_local plain_ip_address None local_sample remote_sample)
  = merge_hosts_with_local plain_ip_address None local_sample remote_sample.
Proof.
  apply (merge_idempotent_spaced plain_ip_address None local_sample
                                 remote_sample).
  vm_compute. reflexivity.
Defined.

(** A local line whose two tokens are separated by a vertical tab
    (U+000B): the second loop keeps it, the first loop does not record it
    when it meets it in the remote file, so the next merge appends it
    again. *)
Definition vtab_line : str := lit "1.2.3.4" ++ [11%N] ++ lit "router.lan".

Lemma merge_not_idempotent :
  merge_hosts_with_local plain_ip_address None [vtab_line] [] = [vtab_line]
  ∧ merge_hosts_with_local plain_ip_address None [vtab_line]
      (merge_hosts_with_local plain_ip_address None [vtab_line] [])
    = [vtab_line; vtab_line]
  ∧ merge_hosts_with_local plain_ip_address None [vtab_line]
      (merge_hosts_with_local plain_ip_address None [vtab_line] [])
    ≠ merge_hosts_with_local plain_ip_address None [vtab_line] [].
Proof. split_and!; [by vm_compute | by vm_compute | by vm_compute]. Qed.



End HostsProofs.

(** ** The path translator *)

Module TranslateProofs.
Import PyStr PyDict PlexPartialScan TranslateSpec PyFacts.

Lemma ensure_slash_prefix (p : str) : p `prefix_of` ensure_slash p.
Proof.
  unfold ensure_slash. destruct (endswith p SLASH); [done|].
  by apply prefix_app_r.
Qed.

Lemma rule_matches_spec (p : str) (m : mapping) :
  rule_matches p m = true ↔ matches_at_boundary p m.
Proof.
  unfold rule_matches, matches_at_boundary.
  by rewrite orb_true_iff, startswith_prefix, bool_decide_eq_true.
Qed.

Lemma rule_matches_false (p : str) (m : mapping) :
  rule_matches p m = false ↔ ¬ matches_at_boundary p m.
Proof.
  rewrite <- rule_matches_spec. by destruct (rule_matches p m).
Qed.

Lemma matches_local_prefix (p : str) (m : mapping) :
  matches_at_boundary p m → norm_sep (local m) `prefix_of` p.
Proof.
  intros [H| ->]; [|done].
  etrans; [apply ensure_slash_prefix | done].
Qed.

Lemma try_rules_first (p : str) (rs1 rs2 : list mapping) (m : mapping) :
  (∀ m', m' ∈ rs1 → ¬ matches_at_boundary p m') →
  matches_at_boundary p m →
  try_rules p (rs1 ++ m :: rs2)
  = Some (substitute_prefix (norm_sep (local m)) (norm_sep (remote m)) p,
          Some (library_id m)).
Proof.
  intros Hnone Hm. induction rs1 as [|m' rs1 IH]; simpl.
  - rewrite (proj2 (rule_matches_spec p m) Hm).
    rewrite replace_first_prefix; [done|].
    by apply startswith_prefix, matches_local_prefix.
  - rewrite (proj2 (rule_matches_false p m')).
    + apply IH. intros m0 Hin. apply Hnone, elem_of_cons. by right.
    + apply Hnone, elem_of_cons. by left.
Qed.


Lemma guarded_try_rules (p : str) (rules : list mapping) :
  (if bool_decide (rules ≠ []) then try_rules p rules else None)
  = try_rules p rules.
Proof. by destruct rules. Qed.

Lemma translate_path_is_Some (cfg : config) (p : str) :
  ∃ remote_path library_id,
    translate_path cfg p = Some (remote_path, library_id).
Proof.
  unfold translate_path, translate_marker, simple_mode.
  rewrite !guarded_try_rules.
  destruct (startswith p MARKER).
  - destruct (try_rules _ _) as [[r l]|]; [by eauto|].
    destruct (configured (_path_mapping_remote cfg)); [|by eauto].
    destruct (configured (_path_mapping_local cfg)); [|by eauto].
    destruct (startswith _ (lstrip_chars SLASH _)); by eauto.
  - destruct (try_rules _ _) as [[r l]|]; [by eauto|].
    destruct (configured (_path_mapping_local cfg)),
             (configured (_path_mapping_remote cfg)); [|by eauto..].
    destruct (startswith _ _); by eauto.
Qed.

Lemma first_rule_on_marker_path (cfg : config) (rest : str)
    (rs1 rs2 : list mapping) (m : mapping) :
  _path_library_mapping cfg = rs1 ++ m :: rs2 →
  (∀ m', m' ∈ rs1 → ¬ matches_at_boundary (norm_sep rest) m') →
  matches_at_boundary (norm_sep rest) m →
  translate_path cfg (MARKER ++ rest)
  = Some (substitute_prefix (norm_sep (local m)) (norm_sep (remote m))
                            (norm_sep rest),
          Some (library_id m)).
Proof.
  intros Hrules Hnone Hm. unfold translate_path.
  rewrite startswith_app. unfold translate_marker.
  rewrite replace_first_app, guarded_try_rules, Hrules. simpl.
  by rewrite (try_rules_first _ _ _ _ Hnone Hm).
Qed.

Lemma norm_sep_forward_slashes (s : str) : norm_sep s = to_forward_slashes s.
Proof.
  unfold norm_sep, replace_char, to_forward_slashes.
  induction s as [|c s IH]; [done|]. simpl. rewrite IH.
  destruct (N.eqb_spec c BACKSLASH) as [->|Hne].
  - by rewrite decide_True.
  - by rewrite decide_False.
Qed.

Lemma endswith_slash_last (p : str) :
  endswith p SLASH = true ↔ last p = Some 47%N.
Proof.
  unfold endswith. rewrite startswith_prefix, last_Some.
  change (reverse SLASH) with [47%N]. split.
  - intros [k Hk]. exists (reverse k).
    rewrite <- (reverse_involutive p), Hk. simpl.
    by rewrite reverse_cons.
  - intros [k ->]. exists (reverse k). by rewrite reverse_snoc.
Qed.

(** The test of the code, [startswith] on the prefix made to end in [/]
    or equality, is the boundary test. *)
Lemma matches_at_boundary_spec (p : str) (m : mapping) :
  matches_at_boundary p m ↔ starts_at_boundary (norm_sep (local m)) p.
Proof.
  unfold matches_at_boundary, starts_at_boundary, ensure_slash.
  destruct (endswith (norm_sep (local m)) SLASH) eqn:E.
  - apply endswith_slash_last in E. split.
    + intros [[k ->]| ->]; [|by left]. right. exists k. split; [done | by left].
    + intros [->|(rest & -> & _)]; [by right|]. left. by exists rest.
  - assert (Hl : last (norm_sep (local m)) ≠ Some 47%N).
    { intros H. apply endswith_slash_last in H. congruence. }
    split.
    + intros [[k ->]| ->]; [|by left]. right. exists (SLASH ++ k).
      split; [by rewrite <- (assoc_L (++)) | by right].
    + intros [->|(rest & -> & [H|H])]; [by right | done |].
      destruct rest as [|c rest]; [done|]. injection H as ->.
      left. exists rest. by rewrite <- (assoc_L (++)).
Qed.

(** C6. For a path that begins with the marker, the rules are tried in
    the configured order on the remainder with its backslashes turned. The
    first rule whose local prefix (backslashes turned) the remainder starts
    with at a segment boundary, that is, the remainder is the prefix, or
    continues it with the prefix ending in [/] or the continuation
    beginning with [/], decides the result: the remainder with that prefix
    replaced by the rule's remote prefix, and the rule's library id. A rule
    whose prefix the remainder merely starts with, inside a segment, is
    passed over. *)
Theorem triple_rule_on_marker_path (cfg : config) (rest : str)
    (rs1 rs2 : list mapping) (m : mapping) :
  _path_library_mapping cfg = rs1 ++ m :: rs2 →
  (∀ m', m' ∈ rs1 →
         ¬ starts_at_boundary (to_forward_slashes (local m'))
                              (to_forward_slashes rest)) →
  starts_at_boundary (to_forward_slashes (local m)) (to_forward_slashes rest) →
  translate_path cfg (MARKER ++ rest)
  = Some (to_forward_slashes (remote m)
          ++ drop (length (to_forward_slashes (local m)))
                  (to_forward_slashes rest),
          Some (library_id m)).
Proof.
  intros Hrules Hnone Hm. rewrite <- !norm_sep_forward_slashes in *.
  apply (first_rule_on_marker_path cfg rest rs1 rs2 m Hrules).
  - intros m' Hin Hm'. apply (Hnone m' Hin).
    rewrite <- norm_sep_forward_slashes. by apply matches_at_boundary_spec.
  - by apply matches_at_boundary_spec.
Qed.


(** C10, as the code has it. [translate_path] returns a pair on every
    path and every configuration, never [None]; the caller's test
    [not result or not result[0]] is true exactly when the translated path
    is the empty string. *)
Theorem translate_path_returns_pair (cfg : config) (p : str) :
  ∃ remote_path library_id,
    translate_path cfg p = Some (remote_path, library_id)
    ∧ (translation_failed (translate_path cfg p) = true ↔ remote_path = []).
Proof.
  destruct (translate_path_is_Some cfg p) as (r & l & H).
  exists r, l. split; [done|]. rewrite H. simpl.
  destruct r; simpl; split; done.
Qed.

(** *** The translator on the examples of the specification *)

Definition triple_config : config :=
  Config None None [Mapping (lit "/a/") (lit "/x/") (lit "7")] []
         true None None None false.


Definition empty_config : config :=
  Config None None [] [] true None None None false.

Definition a_then_ab_config : config :=
  Config None None
         [Mapping (lit "/a") (lit "/x") (lit "1");
          Mapping (lit "\ab") (lit "\y") (lit "2")]
         [] true None None None false.

Lemma triple_rule_on_marker_path_witness :
  translate_path a_then_ab_config (MARKER ++ lit "/ab\c")
  = Some (lit "/y/c", Some (lit "2"))
  ∧ translate_path triple_config (MARKER ++ lit "/a/b/file.mkv")
    = Some (lit "/x/b/file.mkv", Some (lit "7")).
Proof.
  split.
  - rewrite (triple_rule_on_marker_path a_then_ab_config (lit "/ab\c")
               [Mapping (lit "/a") (lit "/x") (lit "1")] []
               (Mapping (lit "\ab") (lit "\y") (lit "2"))).
    + vm_compute. reflexivity.
    + reflexivity.
    + intros m' Hin. apply list_elem_of_singleton in Hin as ->.
      intros [H|(rest & H & [Hl|Hh])].
      * vm_compute in H. discriminate H.
      * vm_compute in Hl. discriminate Hl.
      * vm_compute in H. injection H as <-. vm_compute in Hh.
        discriminate Hh.
    + right. exists (lit "/c"). split; [vm_compute; reflexivity|].
      right. reflexivity.
  - rewrite (triple_rule_on_marker_path triple_config (lit "/a/b/file.mkv")
               [] [] (Mapping (lit "/a/") (lit "/x/") (lit "7"))).
    + vm_compute. reflexivity.
    + reflexivity.
    + intros m' Hin. by apply elem_of_nil in Hin.
    + right. exists (lit "b/file.mkv"). split; [vm_compute; reflexivity|].
      left. vm_compute. reflexivity.
Defined.



(** The marker alone with nothing configured: the translated path is
    empty and the caller takes its failure branch. *)
Lemma empty_translation_takes_failure_branch :
  translate_path empty_config MARKER = Some ([], None)
  ∧ translation_failed (translate_path empty_config MARKER) = true.
Proof. split; by vm_compute. Qed.

End TranslateProofs.

(** ** The scan queue *)

Module ScanProofs.
Import PyStr PyDict PlexPartialScan.

(** A Plex server is configured and movies go to library 3; no path
    mapping, no cache refresh, no notification. *)
Definition movie_config : config :=
  Config None None [] [(lit "movie", lit "3")] false None
         (Some (lit "http://plex:32400")) (Some (lit "token")) false.

Definition alien : scan_item :=
  ScanItem (lit "/media/movies/Alien/alien.mkv") None (Some (lit "movie")) 1.
Definition brazil : scan_item :=
  ScanItem (lit "/media/movies/Brazil/brazil.mkv") None (Some (lit "movie")) 2.
Definition casablanca : scan_item :=
  ScanItem (lit "/media/movies/Casablanca/casablanca.mkv") None
           (Some (lit "movie")) 3.

(** Two episodes that arrive in the same directory. *)
Definition episode1 : scan_item :=
  ScanItem (lit "/media/tv/Show/S01/e01.mkv") None (Some (lit "tv")) 1.
Definition episode2 : scan_item :=
  ScanItem (lit "/media/tv/Show/S01/e02.mkv") None (Some (lit "tv")) 2.

(** Without notifications the answers of the Plex server change nothing
    in what the method does. *)
Lemma trigger_plex_scan_calls (plex_ok plex_ok' : str → str → bool)
    (cfg : config) (p : str) (mt lid : option str) :
  (trigger_plex_scan plex_ok cfg p mt lid).1
  = (trigger_plex_scan plex_ok' cfg p mt lid).1.
Proof.
  unfold trigger_plex_scan.
  by destruct (configured (_plex_url cfg)), (configured (_plex_token cfg)).
Qed.

Lemma scan_step_quiet (plex_ok plex_ok' : str → str → bool) (cfg : config)
    (leaked : scan_item) (st : run) (entry : str * dir_info) :
  _notify cfg = false →
  scan_step plex_ok cfg leaked st entry
  = scan_step plex_ok' cfg leaked st entry.
Proof.
  intros Hq. unfold scan_step. rewrite Hq.
  rewrite (trigger_plex_scan_calls plex_ok plex_ok').
  destruct (raised st); [done|].
  by destruct (trigger_plex_scan plex_ok cfg _ _ _).2,
              (trigger_plex_scan plex_ok' cfg _ _ _).2.
Qed.

Lemma process_scan_queue_quiet (plex_ok plex_ok' : str → str → bool)
    (cfg : config) (q : list scan_item) :
  _notify cfg = false →
  process_scan_queue plex_ok cfg q = process_scan_queue plex_ok' cfg q.
Proof.
  intros Hq. unfold process_scan_queue.
  destruct (last q) as [leaked|]; [|done].
  generalize (Run q [] false).
  induction (foldl (group_step cfg) [] q) as [|e d IH]; intros st; [done|].
  simpl. rewrite (scan_step_quiet plex_ok plex_ok' cfg leaked st e Hq).
  apply IH.
Qed.

(** C8, on a queue of three files in three directories. The first loop
    makes three groups; the second loop scans the first two directories,
    then the second [remove] of the same entry raises, raises again in the
    handler and leaves the method: the third directory is never scanned. *)
Theorem third_directory_not_scanned (plex_ok : str → str → bool) :
  keys (foldl (group_step movie_config) [] [alien; brazil; casablanca])
  = [lit "/media/movies/Alien/"; lit "/media/movies/Brazil/";
     lit "/media/movies/Casablanca/"]
  ∧ process_scan_queue plex_ok movie_config [alien; brazil; casablanca]
    = Run [alien; brazil]
          [PlexRefresh (lit "3") (lit "/media/movies/Alien/");
           PlexRefresh (lit "3") (lit "/media/movies/Brazil/")]
          true.
Proof.
  split; [by vm_compute|].
  rewrite (process_scan_queue_quiet plex_ok (λ _ _, true)) by done.
  by vm_compute.
Qed.

(** C9, on a queue of two files in one directory. The method returns
    normally, the directory is scanned once, and the first entry is still
    in the queue. *)
Theorem queue_not_drained (plex_ok : str → str → bool) :
  process_scan_queue plex_ok movie_config [episode1; episode2]
  = Run [episode1]
        [PlexRefresh (lit "3") (lit "/media/tv/Show/S01/")]
        false.
Proof.
  rewrite (process_scan_queue_quiet plex_ok (λ _ _, true)) by done.
  by vm_compute.
Qed.

End ScanProofs.

(** ** Further properties of the hosts merge *)

Module HostsExtra.
Import PyStr PyDict ImmortalWrtHosts HostsSpec HostsRun PyFacts HostsProofs.

Section Local.

Variable ip_address : str → option ip_obj.
Variable ignore : list str.

Lemma collect_local_skip (L1 L2 : list str) (raw : str) :
  local_entry ip_address ignore raw = None →
  collect_local ip_address ignore (L1 ++ raw :: L2)
  = collect_local ip_address ignore (L1 ++ L2).
Proof.
  intros Hraw. unfold collect_local. rewrite !foldl_app. simpl.
  unfold local_step at 2. by rewrite Hraw.
Qed.

Lemma collect_local_nil (L : list str) :
  (∀ raw, raw ∈ L → local_entry ip_address ignore raw = None) →
  collect_local ip_address ignore L = [].
Proof.
  induction L as [|raw L IH]; intros H; [done|].
  change (raw :: L) with ([] ++ raw :: L).
  rewrite collect_local_skip.
  - apply IH. intros r Hr. apply H, elem_of_cons. by right.
  - apply H, elem_of_cons. by left.
Qed.

Lemma collect_local_nil_inv (L : list str) :
  collect_local ip_address ignore L = [] →
  ∀ raw, raw ∈ L → local_entry ip_address ignore raw = None.
Proof.
  intros Hnil raw Hin.
  destruct (local_entry ip_address ignore raw) as [[h l]|] eqn:E; [|done].
  assert (Hh : h ∈ local_hostnames ip_address ignore L).
  { unfold local_hostnames. apply elem_of_list_to_set, list_elem_of_omap.
    exists raw. split; [done|]. by rewrite E. }
  apply collect_local_keys in Hh. rewrite Hnil in Hh.
  by apply elem_of_nil in Hh.
Qed.

Lemma contains_empty (s : str) : contains [] s = true.
Proof. by destruct s. Qed.

End Local.

Lemma no_update_keeps_remote (ip_address : str → option ip_obj)
    (_ignore : option str) (local_hosts remote_hosts : list str) :
  (∀ raw, raw ∈ local_hosts →
          local_entry ip_address (ignore_list _ignore) raw = None) →
  merge_hosts_with_local ip_address _ignore local_hosts remote_hosts
  = remote_hosts.
Proof.
  intros H. unfold merge_hosts_with_local.
  rewrite (collect_local_nil _ _ _ H), scan_remote_fst. done.
Qed.

(** X1. A local file without an eligible line (only comments, blanks,
    ignored or filtered entries, or no line at all) leaves the remote file
    as it is. *)
Theorem merge_without_eligible_local (ip_address : str → option ip_obj)
    (_ignore : option str) (local_hosts remote_hosts : list str) :
  (∀ raw, raw ∈ local_hosts →
          local_entry ip_address (ignore_list _ignore) raw = None) →
  merge_hosts_with_local ip_address _ignore local_hosts remote_hosts
  = remote_hosts.
Proof. apply no_update_keeps_remote. Qed.

(** X2. A local line that the second loop does not keep can be taken out
    of the local file without any change of the result. *)
Theorem merge_ignores_dropped_line (ip_address : str → option ip_obj)
    (_ignore : option str) (L1 L2 remote_hosts : list str) (raw : str) :
  local_entry ip_address (ignore_list _ignore) raw = None →
  merge_hosts_with_local ip_address _ignore (L1 ++ raw :: L2) remote_hosts
  = merge_hosts_with_local ip_address _ignore (L1 ++ L2) remote_hosts.
Proof.
  intros H. unfold merge_hosts_with_local.
  by rewrite (collect_local_skip _ _ _ _ _ H).
Qed.

(** X3. An empty string among the ignore tokens, as a doubled or trailing
    [|] in the setting gives, switches the local side off: every local line
    contains it, so the merge returns the remote file. *)
Theorem empty_ignore_token_disables_merge
    (ip_address : str → option ip_obj) (_ignore : option str)
    (local_hosts remote_hosts : list str) :
  [] ∈ ignore_list _ignore →
  merge_hosts_with_local ip_address _ignore local_hosts remote_hosts
  = remote_hosts.
Proof.
  intros Hin. unfold merge_hosts_with_local.
  rewrite collect_local_nil, scan_remote_fst; [done|].
  intros raw _. eapply local_entry_substring; [exact Hin|].
  apply contains_empty.
Qed.

Lemma apply_updates_elems (idx : dict nat) (U : dict str)
    (m0 M : list str) :
  apply_updates idx U m0 = Some M →
  ∀ y, y ∈ M → y ∈ m0 ∨ y ∈ U.*2.
Proof.
  revert M. induction U as [|[h l] U IH] using rev_ind; intros M HM y Hy.
  - injection HM as <-. by left.
  - rewrite apply_updates_snoc in HM.
    destruct (apply_updates idx U m0) as [M'|]; [|done]. simpl in HM.
    rewrite fmap_app, elem_of_app. simpl.
    assert (Hcase : y ∈ M' ∨ y = l).
    { destruct (dict_get h idx) as [i|].
      - destruct (decide (i < length M')); [|done]. injection HM as <-.
        apply list_elem_of_lookup in Hy as [j Hj].
        apply list_lookup_insert_Some in Hj as [(_ & -> & _)|[_ Hj]];
          [by right|].
        left. by eapply list_elem_of_lookup_2.
      - injection HM as <-. apply elem_of_app in Hy as [Hy|Hy]; [by left|].
        right. by apply list_elem_of_singleton in Hy. }
    destruct Hcase as [Hy'| ->].
    + destruct (IH M' eq_refl y Hy') as [?|?]; [by left | right; by left].
    + right. right. by apply list_elem_of_singleton.
Qed.

Lemma lines_from_either_file (ip_address : str → option ip_obj)
    (_ignore : option str) (local_hosts remote_hosts : list str) (y : str) :
  y ∈ merge_hosts_with_local ip_address _ignore local_hosts remote_hosts →
  y ∈ remote_hosts
  ∨ ∃ raw h, raw ∈ local_hosts
             ∧ local_entry ip_address (ignore_list _ignore) raw = Some (h, y).
Proof.
  intros Hy.
  destruct (apply_updates_elems _ _ _ _
              (merge_run ip_address _ignore local_hosts remote_hosts) y Hy)
    as [Hr|Hu]; [by left|].
  right. apply list_elem_of_fmap in Hu as [[h l] [-> Hin]].
  apply collect_local_elem, last_local_Some in Hin as (raw & Hraw & Hl).
  by exists raw, h.
Qed.

Lemma merge_empty_nothing (ip_address : str → option ip_obj)
    (_ignore : option str) (local_hosts remote_hosts : list str) :
  merge_hosts_with_local ip_address _ignore local_hosts remote_hosts = [] →
  remote_hosts = []
  ∧ ∀ raw, raw ∈ local_hosts →
           local_entry ip_address (ignore_list _ignore) raw = None.
Proof.
  intros Hnil.
  pose proof (merge_length_appended ip_address _ignore local_hosts
                                    remote_hosts) as Hlen.
  rewrite Hnil in Hlen. simpl in Hlen.
  assert (remote_hosts = []) as -> by (apply nil_length_inv; lia).
  split; [done|]. apply collect_local_nil_inv.
  destruct (collect_local ip_address (ignore_list _ignore) local_hosts)
    as [|[h l] U] eqn:EU; [done|].
  exfalso. unfold appended in Hlen. simpl in Hlen. lia.
Qed.

(** X4. The merge invents no line: every line of the result is a line of
    the remote file or the stripped text of a local line that the second
    loop has kept. *)
Theorem merge_lines_origin (ip_address : str → option ip_obj)
    (_ignore : option str) (local_hosts remote_hosts : list str) (y : str) :
  y ∈ merge_hosts_with_local ip_address _ignore local_hosts remote_hosts →
  y ∈ remote_hosts
  ∨ ∃ raw h, raw ∈ local_hosts
             ∧ local_entry ip_address (ignore_list _ignore) raw = Some (h, y).
Proof. apply lines_from_either_file. Qed.

(** X5. The result is empty only when there is nothing at all: the remote
    file is empty and no local line is kept. In every other case the result
    is at least as long as the remote file. *)
Theorem merge_empty_iff (ip_address : str → option ip_obj)
    (_ignore : option str) (local_hosts remote_hosts : list str) :
  (merge_hosts_with_local ip_address _ignore local_hosts remote_hosts = []
   ↔ remote_hosts = []
     ∧ ∀ raw, raw ∈ local_hosts →
              local_entry ip_address (ignore_list _ignore) raw = None)
  ∧ length remote_hosts
    ≤ length (merge_hosts_with_local ip_address _ignore local_hosts
                                     remote_hosts).
Proof.
  split; [|rewrite merge_length_appended; lia].
  split; [apply merge_empty_nothing|].
  intros [-> H]. by apply no_update_keeps_remote.
Qed.

(** X6. A run is skipped without a write exactly when the local file has
    lines, the remote file came back empty and no local line is kept. *)
Theorem run_skipped_iff (ip_address : str → option ip_obj)
    (_ignore : option str) (local_hosts remote_hosts : list str) :
  fetch_and_update_hosts ip_address _ignore local_hosts remote_hosts = Skipped
  ↔ local_hosts ≠ [] ∧ remote_hosts = []
    ∧ ∀ raw, raw ∈ local_hosts →
             local_entry ip_address (ignore_list _ignore) raw = None.
Proof.
  unfold fetch_and_update_hosts.
  destruct local_hosts as [|raw0 L]; [split; [done | by intros [? _]]|].
  destruct (merge_hosts_with_local ip_address _ignore (raw0 :: L) remote_hosts)
    as [|y M] eqn:EM.
  - apply merge_empty_nothing in EM as [-> H]. done.
  - split; [done|]. intros (_ & -> & H).
    rewrite no_update_keeps_remote in EM by done. done.
Qed.



(** *** The extra properties on small inputs *)

Definition comments_only : list str :=
  [BOM ++ lit "# only comments"; lit ""; lit "127.0.0.1 localhost"].

Lemma comments_only_dropped (raw : str) :
  raw ∈ comments_only →
  local_entry plain_ip_address (ignore_list None) raw = None.
Proof.
  intros Hin. unfold comments_only in Hin.
  repeat (apply elem_of_cons in Hin as [->|Hin]; [by vm_compute|]).
  by apply elem_of_nil in Hin.
Defined.

Lemma merge_without_eligible_local_witness :
  merge_hosts_with_local plain_ip_address None comments_only remote_sample
  = remote_sample.
Proof.
  apply (merge_without_eligible_local plain_ip_address None comments_only
                                      remote_sample).
  exact comments_only_dropped.
Defined.

Lemma merge_ignores_dropped_line_witness :
  merge_hosts_with_local plain_ip_address None
    ([lit "1.2.3.4 a.com"] ++ lit "# note" :: [lit "5.6.7.8 b.com"])
    remote_sample
  = merge_hosts_with_local plain_ip_address None
      ([lit "1.2.3.4 a.com"] ++ [lit "5.6.7.8 b.com"]) remote_sample.
Proof.
  apply (merge_ignores_dropped_line plain_ip_address None).
  vm_compute. reflexivity.
Defined.

Lemma empty_ignore_token_disables_merge_witness :
  merge_hosts_with_local plain_ip_address (Some (lit "example.org|"))
                         local_sample remote_sample
  = remote_sample.
Proof.
  apply (empty_ignore_token_disables_merge plain_ip_address
           (Some (lit "example.org|")) local_sample remote_sample).
  apply list_elem_of_In. vm_compute. right. left. reflexivity.
Defined.

Lemma merge_lines_origin_witness :
  lit "9.9.9.9 a.com" ∈ remote_sample
  ∨ ∃ raw h, raw ∈ local_sample
             ∧ local_entry plain_ip_address (ignore_list None) raw
               = Some (h, lit "9.9.9.9 a.com").
Proof.
  apply (merge_lines_origin plain_ip_address None local_sample remote_sample).
  rewrite merge_sample. apply list_elem_of_In. vm_compute. tauto.
Defined.

Lemma run_skipped_iff_witness :
  fetch_and_update_hosts plain_ip_address None comments_only [] = Skipped.
Proof.
  apply (run_skipped_iff plain_ip_address None comments_only []).
  split_and!; [done | done | exact comments_only_dropped].
Defined.



End HostsExtra.

(** ** Further properties of the path translator and the library lookup *)

Module PlexExtra.
Import PyStr PyDict PlexPartialScan TranslateSpec PyFacts TranslateProofs.
Import ScanProofs.

Lemma try_rules_Some (p : str) (rules : list mapping) :
  (∃ m, m ∈ rules ∧ matches_at_boundary p m) →
  ∃ found, try_rules p rules = Some found.
Proof.
  intros (m & Hin & Hm). induction rules as [|m0 rules IH]; simpl.
  - by apply elem_of_nil in Hin.
  - destruct (rule_matches p m0) eqn:E; [by eauto|].
    apply IH. apply elem_of_cons in Hin as [->|Hin]; [|done].
    apply rule_matches_spec in Hm. congruence.
Qed.

(** X9. When a triple rule applies to the normalised path, the marker in
    front of the path makes no difference to the translation. *)
Theorem marker_irrelevant_under_triple_rule (cfg : config) (rest : str) :
  startswith rest MARKER = false →
  (∃ m, m ∈ _path_library_mapping cfg
        ∧ matches_at_boundary (norm_sep rest) m) →
  translate_path cfg (MARKER ++ rest) = translate_path cfg rest.
Proof.
  intros Hplain Hm. destruct (try_rules_Some _ _ Hm) as [found Hf].
  unfold translate_path. rewrite startswith_app, Hplain.
  unfold translate_marker. rewrite replace_first_app. simpl.
  by rewrite !guarded_try_rules, Hf.
Qed.

(** X10. A triple rule that applies decides alone: the legacy local and
    remote prefixes, and every other setting, have no influence on the
    translation of the path. *)
Theorem triple_rule_overrides_pair_mapping (cfg cfg' : config) (p : str) :
  startswith p MARKER = false →
  _path_library_mapping cfg' = _path_library_mapping cfg →
  (∃ m, m ∈ _path_library_mapping cfg ∧ matches_at_boundary (norm_sep p) m) →
  translate_path cfg' p = translate_path cfg p.
Proof.
  intros Hplain Hrules Hm. destruct (try_rules_Some _ _ Hm) as [found Hf].
  unfold translate_path. rewrite Hplain, Hrules.
  by rewrite !guarded_try_rules, Hf.
Qed.

Lemma configured_Some (o : option str) (s : str) :
  configured o = Some s → o = Some s ∧ s ≠ [].
Proof.
  unfold configured. destruct o as [[|c t]|]; simpl; [done| |done].
  by intros [= <-].
Qed.

Lemma dict_get_values {V} (k : str) (v : V) (d : dict V) :
  dict_get k d = Some v → v ∈ values d.
Proof.
  intros H. apply dict_get_Some_elem in H.
  unfold values. apply list_elem_of_fmap. by exists (k, v).
Qed.

Lemma first_library_values (cfg : config) (v : str) :
  first_library cfg = Some v → v ∈ values (_library_mapping cfg).
Proof.
  unfold first_library. destruct (values (_library_mapping cfg)); [done|].
  simpl. intros [= ->]. apply elem_of_cons. by left.
Qed.

Lemma get_library_id_values (cfg : config) (mt : option str) (v : str) :
  get_library_id cfg mt = Some v → v ∈ values (_library_mapping cfg).
Proof.
  unfold get_library_id. destruct (configured mt) as [t|].
  - destruct (configured (dict_get _ (_library_mapping cfg))) as [w|] eqn:E.
    + intros [= <-]. apply configured_Some in E as [E _].
      by eapply dict_get_values.
    + destruct (_library_mapping cfg) eqn:El; [done|]. rewrite <- El.
      apply first_library_values.
  - apply first_library_values.
Qed.

(** X11. The library lookup by media type only ever answers with library
    ids of the configured mapping; for a given media type it answers with at
    most one id, and never with an empty one. *)
Theorem library_ids_are_configured (cfg : config) (mt : option str) :
  (∀ v, v ∈ get_library_ids cfg mt → v ∈ values (_library_mapping cfg))
  ∧ (∀ t, configured mt = Some t →
          length (get_library_ids cfg mt) ≤ 1
          ∧ [] ∉ get_library_ids cfg mt).
Proof.
  unfold get_library_ids. split.
  - intros v. destruct (_library_mapping cfg) eqn:El.
    + intros H. by apply elem_of_nil in H.
    + rewrite <- El. destruct (configured mt); [|done].
      destruct (configured (get_library_id cfg mt)) as [w|] eqn:E.
      * intros H. apply list_elem_of_singleton in H as ->.
        apply configured_Some in E as [E _].
        by eapply get_library_id_values.
      * intros H. by apply elem_of_nil in H.
  - intros t ->. destruct (_library_mapping cfg).
    + split; [simpl; lia | apply not_elem_of_nil].
    + destruct (configured (get_library_id cfg mt)) as [w|] eqn:E.
      * split; [simpl; lia|]. intros H.
        apply list_elem_of_singleton in H.
        apply configured_Some in E as [_ E]. done.
      * split; [simpl; lia | apply not_elem_of_nil].
Qed.

(** *** The scan queue *)

Lemma list_remove_other (y x : scan_item) (l l' : list scan_item) :
  list_remove y l = Some l' → x ≠ y → x ∈ l → x ∈ l'.
Proof.
  revert l'. induction l as [|z l IH]; intros l' Hrm Hne Hin; [done|].
  simpl in Hrm. destruct (decide (y = z)) as [->|Hyz].
  - injection Hrm as <-. apply elem_of_cons in Hin as [->|Hin]; done.
  - destruct (list_remove y l) as [l0|]; [|done]. injection Hrm as <-.
    apply elem_of_cons in Hin as [->|Hin]; apply elem_of_cons;
      [by left | right; by apply IH].
Qed.

Lemma scan_step_keeps (plex_ok : str → str → bool) (cfg : config)
    (leaked x : scan_item) (st : run) (entry : str * dir_info) :
  x ≠ leaked → x ∈ queue st →
  x ∈ queue (scan_step plex_ok cfg leaked st entry).
Proof.
  intros Hne Hin. unfold scan_step. destruct (raised st); [done|].
  destruct (list_remove leaked (queue st)) as [q'|] eqn:E; simpl; [|done].
  by eapply list_remove_other.
Qed.

(** X12. The second loop only ever takes the last entry of the queue out
    of it: every entry that differs from the last one is still queued when
    [process_scan_queue] is over, so a queue that holds two different
    entries is never empty afterwards. *)
Theorem only_last_entry_leaves_queue (plex_ok : str → str → bool)
    (cfg : config) (q : list scan_item) (x : scan_item) :
  x ∈ q → last q ≠ Some x →
  x ∈ queue (process_scan_queue plex_ok cfg q)
  ∧ queue (process_scan_queue plex_ok cfg q) ≠ [].
Proof.
  intros Hin Hlast.
  assert (Hx : x ∈ queue (process_scan_queue plex_ok cfg q)).
  { unfold process_scan_queue. destruct (last q) as [leaked|]; [|done].
    assert (Hne : x ≠ leaked) by congruence.
    assert (Hinv : ∀ d st, x ∈ queue st →
                           x ∈ queue (foldl (scan_step plex_ok cfg leaked)
                                            st d)).
    { induction d as [|e d IH]; intros st Hst; [done|].
      simpl. apply IH. by apply scan_step_keeps. }
    by apply Hinv. }
  split; [done|]. intros Hnil. rewrite Hnil in Hx. by apply elem_of_nil in Hx.
Qed.

(** X13. A queue of one entry is handled in full: when its path
    translates to a non-empty path, the entry is gone afterwards and no
    exception leaves the method; when the translation is empty, nothing is
    called and the entry stays queued. *)
Theorem single_entry_queue (plex_ok : str → str → bool) (cfg : config)
    (it : scan_item) :
  (translation_failed (translate_path cfg (path it)) = false →
   queue (process_scan_queue plex_ok cfg [it]) = []
   ∧ raised (process_scan_queue plex_ok cfg [it]) = false)
  ∧ (translation_failed (translate_path cfg (path it)) = true →
     process_scan_queue plex_ok cfg [it] = Run [it] [] false).
Proof.
  unfold process_scan_queue. simpl. unfold group_step.
  split; intros Hf; rewrite Hf; [|done].
  destruct (translate_path cfg (path it)) as [[rp lid]|]; [|done].
  unfold dir_map_add. simpl. unfold scan_step. simpl.
  by rewrite decide_True.
Qed.

(** *** The scan directory *)

Lemma split_on_cons (sep : N) (s : str) :
  ∃ p ps, split_on sep s = p :: ps.
Proof.
  destruct s as [|c s]; simpl; [by eauto|].
  destruct (c =? sep)%N; [by eauto|].
  destruct (split_on sep s); by eauto.
Qed.

Lemma split_on_absent (sep : N) (f : str) :
  sep ∉ f → split_on sep f = [f].
Proof.
  induction f as [|c f IH]; intros Hn; [done|].
  apply not_elem_of_cons in Hn as [Hc Hf]. simpl.
  destruct (N.eqb_spec c sep) as [->|_]; [done|].
  by rewrite IH.
Qed.

Lemma split_on_snoc (sep : N) (d f : str) :
  sep ∉ f → split_on sep (d ++ sep :: f) = split_on sep d ++ [f].
Proof.
  intros Hn. induction d as [|c d IH]; simpl.
  - rewrite N.eqb_refl. by rewrite split_on_absent.
  - destruct (c =? sep)%N; rewrite IH; [done|].
    by destruct (split_on_cons sep d) as (p & ps & ->).
Qed.

Lemma join_split_on (sep : N) (d : str) :
  join [sep] (split_on sep d) = d.
Proof.
  induction d as [|c d IH]; [done|]. simpl.
  destruct (N.eqb_spec c sep) as [->|_].
  - destruct (split_on_cons sep d) as (p & ps & E). rewrite E in *.
    change (join [sep] ([] :: p :: ps))
      with ([sep] ++ join [sep] (p :: ps)).
    by rewrite IH.
  - destruct (split_on_cons sep d) as (p & ps & E). rewrite E in *.
    destruct ps as [|q ps].
    + simpl in *. by rewrite IH.
    + change (join [sep] ((c :: p) :: q :: ps))
        with (c :: (p ++ [sep] ++ join [sep] (q :: ps))).
      change (join [sep] (p :: q :: ps))
        with (p ++ [sep] ++ join [sep] (q :: ps)) in IH.
      by rewrite IH.
Qed.

(** X14. For a translated path that ends in a media extension, the scan
    directory is the path up to and including its last [/]: the file name
    is cut off and nothing else changes. A bare file name, without any
    [/], gives the root directory [/]. *)
Theorem scan_dir_cuts_file_name (d f : str) :
  (47%N ∉ f → endswith_any (d ++ SLASH ++ f) MEDIA_EXTENSIONS = true →
   scan_dir_of (d ++ SLASH ++ f) = d ++ SLASH)
  ∧ (47%N ∉ f → endswith_any f MEDIA_EXTENSIONS = true →
     scan_dir_of f = SLASH)
  ∧ (endswith_any f MEDIA_EXTENSIONS = false → scan_dir_of f = f).
Proof.
  unfold scan_dir_of. split_and!.
  - intros Hn ->. change (d ++ SLASH ++ f) with (d ++ 47%N :: f).
    rewrite split_on_snoc by done.
    rewrite length_app. simpl.
    replace (length (split_on 47 d) + 1 - 1) with (length (split_on 47 d))
      by lia.
    rewrite take_app_length. change SLASH with [47%N].
    by rewrite (join_split_on 47 d).
  - intros Hn ->. by rewrite split_on_absent.
  - by intros ->.
Qed.

(** *** The extra properties on small inputs *)

Definition a_to_x : mapping := Mapping (lit "/a/") (lit "/x/") (lit "7").

Lemma a_to_x_applies :
  ∃ m, m ∈ _path_library_mapping triple_config
       ∧ matches_at_boundary (norm_sep (lit "/a/b/file.mkv")) m.
Proof.
  exists a_to_x. split; [apply elem_of_cons; by left|].
  left. exists (lit "b/file.mkv"). vm_compute. reflexivity.
Defined.

Lemma marker_irrelevant_under_triple_rule_witness :
  translate_path triple_config (MARKER ++ lit "/a/b/file.mkv")
  = translate_path triple_config (lit "/a/b/file.mkv").
Proof.
  apply (marker_irrelevant_under_triple_rule triple_config
           (lit "/a/b/file.mkv") eq_refl a_to_x_applies).
Defined.

Lemma triple_rule_overrides_pair_mapping_witness :
  translate_path
    (Config (Some (lit "/a/")) (Some (lit "/elsewhere/")) [a_to_x] []
            true None None None false)
    (lit "/a/b/file.mkv")
  = translate_path triple_config (lit "/a/b/file.mkv").
Proof.
  apply (triple_rule_overrides_pair_mapping triple_config _
           (lit "/a/b/file.mkv") eq_refl eq_refl a_to_x_applies).
Defined.

Lemma only_last_entry_leaves_queue_witness :
  alien ∈ queue (process_scan_queue (λ _ _, true) movie_config
                                    [alien; brazil; casablanca])
  ∧ queue (process_scan_queue (λ _ _, true) movie_config
                              [alien; brazil; casablanca]) ≠ [].
Proof.
  apply (only_last_entry_leaves_queue (λ _ _, true) movie_config
           [alien; brazil; casablanca] alien).
  - apply elem_of_cons. by left.
  - simpl. intros H. discriminate H.
Defined.

Lemma single_entry_queue_witness :
  queue (process_scan_queue (λ _ _, true) movie_config [alien]) = []
  ∧ raised (process_scan_queue (λ _ _, true) movie_config [alien]) = false.
Proof.
  apply (proj1 (single_entry_queue (λ _ _, true) movie_config alien)).
  vm_compute. reflexivity.
Defined.

Lemma scan_dir_cuts_file_name_witness :
  scan_dir_of (lit "/media/tv/Show/S01" ++ SLASH ++ lit "e01.mkv")
  = lit "/media/tv/Show/S01" ++ SLASH.
Proof.
  apply (proj1 (scan_dir_cuts_file_name (lit "/media/tv/Show/S01")
                                        (lit "e01.mkv"))).
  - intros H. apply list_elem_of_In in H. vm_compute in H.
    repeat (destruct H as [H|H]; [discriminate H|]). exact H.
  - vm_compute. reflexivity.
Defined.

End PlexExtra.
